(** * dump: wildcard ignore patterns, text classification and the tree walker

    A shallow embedding of [dump.cpp].  A C++ [char] is an [ascii], a
    [std::string] is a [list ascii], a [std::vector] is a [list]; the
    table of the matcher is a [list (list bool)] read and written by
    index.  Everything the program does to the outside world (opening a
    stream, entering a directory, writing to [std::cout] or [std::cerr])
    is recorded, in order, as a trace of [action]s; a run of [main] is its
    exit code and its trace.

    The file system is what the program observes of it: for the scan root
    whether it is a directory and can be listed, for [.gitignore] whether
    it exists and opens, for a file what each of the two streams opened on
    it delivers, for a directory below the root whether the iterator can
    enter it.  The throwing calls of [std::filesystem] that the source
    leaves uncaught are part of the model: [fs::exists] and
    [fs::is_directory] on the scan root, [fs::exists] on [.gitignore], and
    the iterator on a directory it cannot list; the exception leaves
    [main] and the run is terminated ([Terminate] ends the trace; what was
    written before it is in the trace).  The process is started in a working
    directory ([fs::current_path] returns its path), and entries are
    files and directories (no symbolic links or special files).

    Line 152 of the source calls [disable_recursion_pending] on the
    [directory_entry] of the loop.  That is a member of
    [recursive_directory_iterator]; a [directory_entry] has none of that
    name, so the line is ill-formed and the loop holds no handle on the
    iterator.  What the call does to the descent is therefore a parameter
    of the walker, [disable_recursion_pending : bool]: [true] when it
    keeps the iterator out of the directory, as the comment on that line
    intends, [false] when it leaves the iterator as it is. *)

From Stdlib Require Import Ascii String Lia.
From stdpp Require Import base list.
From Equations Require Import Equations.

Local Open Scope char_scope.
Local Open Scope list_scope.

(** ** Strings *)

Abbreviation str := (list ascii).

#[local] Instance ascii_eq_decision : EqDecision ascii := ascii_dec.

(** A string literal of the source. *)
Definition lit (s : string) : str := list_ascii_of_string s.

(** [s[k]]: the source only indexes inside the string; past the end the
    model answers the terminating zero character. *)
Definition char_at (s : str) (k : nat) : ascii := default zero (s !! k).

(** [a == b] on strings. *)
Fixpoint str_eqb (a b : str) : bool :=
  match a, b with
  | [], [] => true
  | x :: a', y :: b' => Ascii.eqb x y && str_eqb a' b'
  | _, _ => false
  end.

(** ** The matcher's table *)

Module Table.

Abbreviation t := (list (list bool)).

(** [std::vector<std::vector<bool>> dp(rows, std::vector<bool>(cols, false))] *)
Definition make (rows cols : nat) : t := replicate rows (replicate cols false).

(** [dp[i][j]] *)
Definition get (dp : t) (i j : nat) : bool :=
  default false (dp !! i ≫= (.!! j)).

(** [dp[i][j] = v] *)
Definition set (dp : t) (i j : nat) (v : bool) : t :=
  alter (<[j := v]>) i dp.

(** All [rows] rows are there, each [cols] long. *)
Definition shaped (rows cols : nat) (dp : t) : Prop :=
  length dp = rows ∧ ∀ i row, dp !! i = Some row → length row = cols.

End Table.

(** ** wildcardMatch *)

(** First loop: [for j in 1..=pattern.size()] on row 0. *)
Definition init_row_step (pattern : str) (dp : Table.t) (j : nat) : Table.t :=
  if Ascii.eqb (char_at pattern (j - 1)) "*"
  then Table.set dp 0 j (Table.get dp 0 (j - 1))
  else dp.

(** Body of the inner loop, at row [i] and column [j]. *)
Definition fill_cell (s pattern : str) (i : nat) (dp : Table.t) (j : nat) : Table.t :=
  if Ascii.eqb (char_at pattern (j - 1)) "*"
  then Table.set dp i j (Table.get dp i (j - 1) || Table.get dp (i - 1) j)
  else if Ascii.eqb (char_at pattern (j - 1)) "?"
          || Ascii.eqb (char_at pattern (j - 1)) (char_at s (i - 1))
  then Table.set dp i j (Table.get dp (i - 1) (j - 1))
  else Table.set dp i j false.

(** Body of the outer loop: the whole row [i]. *)
Definition fill_row (s pattern : str) (dp : Table.t) (i : nat) : Table.t :=
  foldl (fill_cell s pattern i) dp (seq 1 (length pattern)).

Definition fill_table (s pattern : str) : Table.t :=
  let dp0 := Table.make (length s + 1) (length pattern + 1) in
  let dp1 := Table.set dp0 0 0 true in
  let dp2 := foldl (init_row_step pattern) dp1 (seq 1 (length pattern)) in
  foldl (fill_row s pattern) dp2 (seq 1 (length s)).

Definition wildcardMatch (s pattern : str) : bool :=
  match pattern with
  | [] => match s with [] => true | _ => false end
  | _ => Table.get (fill_table s pattern) (length s) (length pattern)
  end.

(** ** matchesAnyPattern *)

Fixpoint matchesAnyPattern (filename : str) (patterns : list str) : bool :=
  match patterns with
  | [] => false
  | pat :: rest =>
      if wildcardMatch filename pat then true
      else matchesAnyPattern filename rest
  end.

(** What "the pattern matches the entire text" means, independently of the
    table: the text splits into one segment per pattern character, where
    ['*'] takes any segment, ['?'] a segment of exactly one character and
    every other character the segment made of that very character. *)
Inductive elem_matches : ascii → str → Prop :=
| em_star seg : elem_matches "*" seg
| em_question x : elem_matches "?" [x]
| em_literal c : c ≠ "*" → c ≠ "?" → elem_matches c [c].

Definition matches (text pattern : str) : Prop :=
  ∃ segs : list str, Forall2 elem_matches pattern segs ∧ concat segs = text.

(** The value the table is meant to hold at [(i, j)], by the recurrences
    of the source read as a recursive function. *)
Fixpoint cell0 (pattern : str) (j : nat) : bool :=
  match j with
  | 0 => true
  | S j' => Ascii.eqb (char_at pattern j') "*" && cell0 pattern j'
  end.

Fixpoint cell (s pattern : str) (i j : nat) : bool :=
  match i with
  | 0 => cell0 pattern j
  | S i' =>
      (fix inner (j : nat) : bool :=
         match j with
         | 0 => false
         | S j' =>
             if Ascii.eqb (char_at pattern j') "*"
             then inner j' || cell s pattern i' (S j')
             else if Ascii.eqb (char_at pattern j') "?"
                     || Ascii.eqb (char_at pattern j') (char_at s i')
             then cell s pattern i' j'
             else false
         end) j
  end.

(** The cells written when the loops stand at row [k], column [l]. *)
Definition filled (k l i j : nat) : Prop := i < k ∨ (i = k ∧ j ≤ l).

(** The loop invariant: the table keeps its shape, the cells written hold
    [cell], the others still hold [false]. *)
Definition table_inv (s pattern : str) (k l : nat) (dp : Table.t) : Prop :=
  Table.shaped (length s + 1) (length pattern + 1) dp ∧
  ∀ i j, i ≤ length s → j ≤ length pattern →
    Table.get dp i j =
      if decide (filled k l i j) then cell s pattern i j else false.

(** ** isTextFile *)

Definition CHUNK_SIZE : nat := 1024.

(** The loop over the bytes read; [c] is the byte as an [unsigned char]. *)
Fixpoint scan_bytes (buffer : str) : bool :=
  match buffer with
  | [] => true
  | ch :: rest =>
      let c := nat_of_ascii ch in
      if Nat.eqb c 0 then false
      else if Nat.ltb c 9 || (Nat.ltb 13 c && Nat.ltb c 32) then false
      else scan_bytes rest
  end.

(** [opened] is what [std::ifstream fin(filePath, std::ios::binary)] finds:
    [None] when the stream is not open, the bytes of the file otherwise.
    [fin.read(buffer, CHUNK_SIZE)] delivers the first [CHUNK_SIZE] of them,
    or all when there are fewer. *)
Definition isTextFile (opened : option str) : bool :=
  match opened with
  | None => false
  | Some bytes => scan_bytes (take CHUNK_SIZE bytes)
  end.

(** The byte values that make a file binary, as the specification lists
    them. *)
Definition disqualifying (v : nat) : Prop := v = 0 ∨ v < 9 ∨ (13 < v ∧ v < 32).

(** ** loadGitignorePatterns *)

Definition newline : ascii := "010".

(** Characters up to the next newline, and what follows that newline. *)
Fixpoint until_newline (s : str) : str * str :=
  match s with
  | [] => ([], [])
  | c :: rest =>
      if Ascii.eqb c newline then ([], rest)
      else let (line, after) := until_newline rest in (c :: line, after)
  end.

(** [std::getline(file, line)] on the unread part of the file: it fails
    when nothing is left, otherwise it delivers the line and consumes its
    newline. *)
Definition getline (file : str) : option (str * str) :=
  match file with
  | [] => None
  | _ => Some (until_newline file)
  end.

(** Body of the [while] loop. *)
Definition gitignore_line (line : str) (patterns : list str) : list str :=
  match line with
  | [] => patterns
  | c :: tail =>
      if Ascii.eqb c "#" then patterns
      else if Ascii.eqb c "/" then patterns ++ [tail]
      else patterns ++ [line]
  end.

Definition inspect {A} (a : A) : {b : A | a = b} := exist _ a eq_refl.

(** [while (std::getline(file, line)) { ... }]: each round leaves a
    strictly shorter unread part, so the loop ends. *)
Equations? read_lines (file : str) (patterns : list str) : list str
  by wf (length file) lt :=
  read_lines file patterns with inspect (getline file) := {
    | exist _ None _ => patterns
    | exist _ (Some (line, rest)) Hget =>
        read_lines rest (gitignore_line line patterns) }.
Proof.
  assert (Hle : ∀ s, length (until_newline s).2 ≤ length s).
  { clear. intros s. induction s as [|c s IH]; simpl; [lia|].
    destruct (Ascii.eqb c newline); simpl; [lia|].
    destruct (until_newline s); simpl in *; lia. }
  destruct file as [|c s]; [discriminate|].
  unfold getline in Hget. injection Hget as Hget. revert Hget. simpl.
  destruct (Ascii.eqb c newline).
  - intros [= _ <-]. lia.
  - specialize (Hle s). destruct (until_newline s) as [l r].
    intros [= _ <-]. simpl in *. lia.
Defined.

(** How a call ends that may throw a [filesystem_error]. *)
Inductive outcome (A : Type) :=
| Done (a : A)
| Raised.
Arguments Done {A} a.
Arguments Raised {A}.

(** What the two guards at the top of the function find. *)
Inductive gitignore :=
| GiRaises                  (* [fs::exists] throws *)
| GiMissing                 (* [fs::exists] is false *)
| GiUnopenable              (* the stream is not open *)
| GiContent (bytes : str).

(** The pattern list as the function leaves it, or the exception. *)
Definition loadGitignorePatterns (gi : gitignore) (patterns : list str)
    : outcome (list str) :=
  match gi with
  | GiRaises => Raised
  | GiMissing => Done patterns
  | GiUnopenable => Done patterns
  | GiContent bytes => Done (read_lines bytes patterns)
  end.

(** The ignore-file part of the specification, in its own words: the lines
    of the file, without those that are empty or start with ['#'], each
    without one leading ['/']. *)
Fixpoint spec_lines (s : str) : list str :=
  match s with
  | [] => [[]]
  | c :: rest =>
      if Ascii.eqb c newline then [] :: spec_lines rest
      else match spec_lines rest with
           | [] => [[c]]
           | l :: ls => (c :: l) :: ls
           end
  end.

Definition spec_kept (line : str) : bool :=
  match line with
  | [] => false
  | c :: _ => negb (Ascii.eqb c "#")
  end.

Definition spec_strip (line : str) : str :=
  match line with
  | c :: tail => if Ascii.eqb c "/" then tail else line
  | [] => []
  end.

Definition kept_patterns (lines : list str) : list str :=
  map spec_strip (filter (λ l, spec_kept l = true) lines).

Definition spec_file_patterns (bytes : str) : list str :=
  kept_patterns (spec_lines bytes).

(** ** The tree below the scan root *)

(** A file is seen through the two streams the walker opens on it: the one
    of [isTextFile] and the one of the content read ([None]: the stream is
    not open).  On a file system that stands still both are the same; the
    source checks each on its own.  A directory is its name and what the
    iterator lists in it, in the order it lists it; a locked directory is
    one the iterator cannot enter (it throws). *)
#[local] Unset Elimination Schemes.
Inductive node :=
| File (name : str) (probe body : option str)
| Dir (name : str) (children : list node)
| Locked (name : str).
#[local] Set Elimination Schemes.

(** What the program does to the outside world. *)
Inductive action :=
| OpenIgnore                (* the stream on [.gitignore] *)
| Descend (rel : str)       (* the iterator enters a directory *)
| OpenProbe (rel : str)     (* the stream of [isTextFile] *)
| OpenBody (rel : str)      (* the stream of the content read *)
| Cout (text : str)
| Cerr (text : str)
| Terminate.                (* an exception leaves [main]: [std::terminate] *)

(** The run was terminated. *)
Definition is_terminate (a : action) : bool :=
  match a with
  | Terminate => true
  | _ => false
  end.

Definition aborted (tr : list action) : bool := existsb is_terminate tr.

(** [tr1], and then [tr2] unless the run was terminated in [tr1]. *)
Definition and_then (tr1 tr2 : list action) : list action :=
  if aborted tr1 then tr1 else tr1 ++ tr2.

(** The rounds of a loop over [l], one after the other. *)
Fixpoint for_each {A} (f : A → list action) (l : list A) : list action :=
  match l with
  | [] => []
  | x :: rest => and_then (f x) (for_each f rest)
  end.

Definition dquote : ascii := "034".

(** [fs::relative(entry.path(), directory).string()] for an entry [name] of
    the directory at [dir] relative to the scan root ([[]]: the root). *)
Definition child_path (dir name : str) : str :=
  match dir with
  | [] => name
  | _ => dir ++ "/" :: name
  end.

(** The three output statements. *)
Definition emit_file (relPath content : str) : list action :=
  [ Cout (lit "<file path=" ++ [dquote] ++ relPath ++ [dquote] ++ lit ">" ++ [newline]);
    Cout (content ++ [newline]);
    Cout (lit "</file>" ++ [newline; newline]) ].

(** Loop body of [dumpDirectory] at an entry that is not a directory. *)
Definition dumpFile (patterns : list str) (relPath name : str)
    (probe body : option str) : list action :=
  if matchesAnyPattern relPath patterns || matchesAnyPattern name patterns
  then []
  else
    OpenProbe relPath ::
    (if negb (isTextFile probe) then []
     else
       OpenBody relPath ::
       match body with
       | None => []
       | Some content => emit_file relPath content
       end).

(** Loop body of [dumpDirectory] at any entry, together with the rounds
    the iterator makes below it when its recursion is left pending.  At a
    directory both branches [continue]; the iterator then goes into it,
    unless its name matched and the call of line 152 disabled that. *)
Fixpoint dumpEntry (disable_recursion_pending : bool) (patterns : list str)
    (dir : str) (entry : node) : list action :=
  match entry with
  | Dir name children =>
      if matchesAnyPattern name patterns && disable_recursion_pending then []
      else
        Descend (child_path dir name) ::
        for_each
          (dumpEntry disable_recursion_pending patterns (child_path dir name))
          children
  | Locked name =>
      if matchesAnyPattern name patterns && disable_recursion_pending then []
      else [Terminate]
  | File name probe body =>
      dumpFile patterns (child_path dir name) name probe body
  end.

Definition dumpDirectory (disable_recursion_pending : bool)
    (entries : list node) (patterns : list str) : list action :=
  for_each (dumpEntry disable_recursion_pending patterns []) entries.

(** What the program wrote to standard output and to standard error. *)
Fixpoint stdout_of (tr : list action) : str :=
  match tr with
  | [] => []
  | Cout text :: rest => text ++ stdout_of rest
  | _ :: rest => stdout_of rest
  end.

Fixpoint stderr_of (tr : list action) : str :=
  match tr with
  | [] => []
  | Cerr text :: rest => text ++ stderr_of rest
  | _ :: rest => stderr_of rest
  end.

(** The run touched the tree: it opened a file or entered a directory. *)
Definition touches (a : action) : bool :=
  match a with
  | OpenIgnore | Descend _ | OpenProbe _ | OpenBody _ => true
  | Cout _ | Cerr _ | Terminate => false
  end.

Definition scans (tr : list action) : bool := existsb touches tr.

(** The block of the specification for one file: opening tag line, content,
    closing tag line, blank line. *)
Definition spec_block (relPath content : str) : str :=
  lit "<file path=" ++ [dquote] ++ relPath ++ [dquote] ++ lit ">" ++ [newline]
  ++ content ++ [newline]
  ++ lit "</file>" ++ [newline]
  ++ [newline].


(** No entry of the tree has the empty name. *)
Fixpoint named (entry : node) : bool :=
  match entry with
  | Dir name children =>
      match name with [] => false | _ => forallb named children end
  | File name _ _ => match name with [] => false | _ => true end
  | Locked name => match name with [] => false | _ => true end
  end.


(** ** main *)

Definition printUsage (programName : str) : list action :=
  [ Cout (lit "Usage: " ++ programName ++ lit " [OPTIONS]" ++ [newline]
          ++ lit "Recursively dump text files to stdout, respecting .gitignore and custom ignore patterns."
          ++ [newline; newline]
          ++ lit "Options:" ++ [newline]
          ++ lit "  -h, --help            Show this help message." ++ [newline]
          ++ lit "  -d, --dir <PATH>      Directory to run in (default: current working directory)."
          ++ [newline]
          ++ lit "  -i, --ignore <PATTERN> Add pattern to ignore (e.g. -i *.sh)" ++ [newline]
          ++ [newline]) ].

(** The scan root as [fs::exists] and [fs::is_directory] find it, and for
    a directory what the program then finds of it. *)
Inductive root_status :=
| Raises                    (* [fs::exists] or [fs::is_directory] throws *)
| Absent
| NotDirectory
| Directory (gi : gitignore) (entries : list node)
| Unlistable (gi : gitignore).  (* a directory the iterator cannot open *)

(** What a run finds outside: the path [fs::current_path()] returns at
    line 200, and for each path given as scan root what line 224 and the
    calls after it find there. *)
Record world := {
  current_path : str;
  status : str → root_status
}.

(** How the argument loop ends: by a [return], or by running off the end
    with the two variables it assigns. *)
Inductive parsed :=
| Return (code : nat) (tr : list action)
| Proceed (targetDir : str) (ignorePatterns : list str).

Definition is_help (arg : str) : bool := str_eqb arg (lit "-h") || str_eqb arg (lit "--help").
Definition is_dir (arg : str) : bool := str_eqb arg (lit "-d") || str_eqb arg (lit "--dir").
Definition is_ignore (arg : str) : bool := str_eqb arg (lit "-i") || str_eqb arg (lit "--ignore").

Definition unrecognized (programName arg : str) : parsed :=
  Return 1 (Cerr (lit "Unrecognized option: " ++ arg ++ [newline]) :: printUsage programName).

(** The loop over [argv[i..]]: [args] is what is left from position [i]
    on, so [i + 1 < argc] says that [args] has a second element. *)
Fixpoint parse_args (programName : str) (args : list str)
    (targetDir : str) (ignorePatterns : list str) : parsed :=
  match args with
  | [] => Proceed targetDir ignorePatterns
  | arg :: rest =>
      if is_help arg then Return 0 (printUsage programName)
      else
        match rest with
        | value :: rest' =>
            if is_dir arg then parse_args programName rest' value ignorePatterns
            else if is_ignore arg
            then parse_args programName rest' targetDir (ignorePatterns ++ [value])
            else unrecognized programName arg
        | [] => unrecognized programName arg
        end
  end.

(** [std::cerr << targetDir] writes a path quoted, with a backslash before
    each double quote and backslash. *)
Fixpoint escaped (s : str) : str :=
  match s with
  | [] => []
  | c :: rest =>
      if Ascii.eqb c dquote || Ascii.eqb c "\" then "\" :: c :: escaped rest
      else c :: escaped rest
  end.

Definition quoted (s : str) : str := dquote :: escaped s ++ [dquote].

(** How a run ends: [main] returns, or an exception leaves it. *)
Inductive ending :=
| Returns (code : nat)
| Aborts.

Definition ending_of (tr : list action) : ending :=
  if aborted tr then Aborts else Returns 0.

(** How a run ends, and its trace. *)
Definition main (disable_recursion_pending : bool) (argv : list str) (w : world)
    : ending * list action :=
  match parse_args (hd [] argv) (tl argv) (current_path w) [] with
  | Return code tr => (Returns code, tr)
  | Proceed targetDir ignorePatterns =>
      match status w targetDir with
      | Raises => (Aborts, [Terminate])
      | Absent | NotDirectory =>
          (Returns 1,
           [Cerr (lit "Directory " ++ quoted targetDir
                  ++ lit " does not exist or is not a directory." ++ [newline])])
      | Directory gi entries =>
          match loadGitignorePatterns gi ignorePatterns with
          | Raised => (Aborts, [Terminate])
          | Done patterns =>
              let tr := match gi with GiMissing => [] | _ => [OpenIgnore] end
                        ++ dumpDirectory disable_recursion_pending entries patterns in
              (ending_of tr, tr)
          end
      | Unlistable gi =>
          match loadGitignorePatterns gi ignorePatterns with
          | Raised => (Aborts, [Terminate])
          | Done _ =>
              (Aborts,
               match gi with GiMissing => [] | _ => [OpenIgnore] end ++ [Terminate])
          end
      end
  end.

(** ** split *)

(** [if (!token.empty()) tokens.push_back(token)], as what is pushed. *)
Definition flush (token : str) : list str :=
  match token with
  | [] => []
  | _ => [token]
  end.

(** Body of the loop over the characters: the state is [tokens] and the
    [token] being collected. *)
Definition split_step (delimiter : ascii) (st : list str * str) (c : ascii)
    : list str * str :=
  if Ascii.eqb c delimiter
  then (st.1 ++ flush st.2, [])
  else (st.1, st.2 ++ [c]).

Definition split (s : str) (delimiter : ascii) : list str :=
  let st := foldl (split_step delimiter) ([], []) s in
  st.1 ++ flush st.2.

(** The tokens the loop still delivers from [s] when [token] is being
    collected: the loop read as a recursion. *)
Fixpoint split_from (delimiter : ascii) (token s : str) : list str :=
  match s with
  | [] => flush token
  | c :: rest =>
      if Ascii.eqb c delimiter
      then flush token ++ split_from delimiter [] rest
      else split_from delimiter (token ++ [c]) rest
  end.

(** The tokens written one after the other with the delimiter between
    them. *)
Fixpoint join (delimiter : ascii) (tokens : list str) : str :=
  match tokens with
  | [] => []
  | [token] => token
  | token :: rest => token ++ delimiter :: join delimiter rest
  end.

(** A token that [split] can deliver: not empty, without the delimiter. *)
Definition is_token (delimiter : ascii) (token : str) : Prop :=
  token ≠ [] ∧ delimiter ∉ token.

(** ** Shapes of patterns *)

(** A pattern without wildcards. *)
Definition literal (pattern : str) : bool :=
  forallb (λ c, negb (Ascii.eqb c "*") && negb (Ascii.eqb c "?")) pattern.

(** The pattern characters that each take exactly one text character. *)
Definition fixed_chars (pattern : str) : nat :=
  length (filter (λ c, c ≠ "*") pattern).

(** ** The order of the walker's actions *)

(** The traces made of these rounds: a directory entered; a file probed
    and left; a file probed, opened for its content and left; a file
    probed, opened for its content and written as its block; at the very
    end, the run terminated. *)
Inductive protocol : list action → Prop :=
| protocol_done : protocol []
| protocol_terminate : protocol [Terminate]
| protocol_descend rel tr :
    protocol tr → protocol (Descend rel :: tr)
| protocol_probe rel tr :
    protocol tr → protocol (OpenProbe rel :: tr)
| protocol_body rel tr :
    protocol tr → protocol (OpenProbe rel :: OpenBody rel :: tr)
| protocol_emit rel content tr :
    protocol tr →
    protocol (OpenProbe rel :: OpenBody rel :: emit_file rel content ++ tr).

(** The paths on which a stream was opened. *)
Fixpoint opened_paths (tr : list action) : list str :=
  match tr with
  | [] => []
  | OpenProbe rel :: rest => rel :: opened_paths rest
  | OpenBody rel :: rest => rel :: opened_paths rest
  | _ :: rest => opened_paths rest
  end.


(** ** Shapes of command lines *)

(** A flag that takes a value. *)
Definition value_flag (arg : str) : bool := is_dir arg || is_ignore arg.

(** A command line made of flag and value pairs. *)
Definition render (opts : list (str * str)) : list str :=
  flat_map (λ o, [o.1; o.2]) opts.

(** The value of the last directory flag among the pairs, or [targetDir]
    when there is none. *)
Definition final_dir (targetDir : str) (opts : list (str * str)) : str :=
  foldl (λ d o, if is_dir o.1 then o.2 else d) targetDir opts.

(** The values of the other pairs, in their order. *)
Definition ignore_values (opts : list (str * str)) : list str :=
  flat_map (λ o, if is_dir o.1 then [] else [o.2]) opts.

(** * Properties *)

(** ** The table *)

Section table.
Import Table.

Lemma make_shaped rows cols : shaped rows cols (make rows cols).
Proof.
  split; [apply length_replicate|].
  intros i row [-> _]%lookup_replicate. apply length_replicate.
Qed.

Lemma get_make rows cols i j : get (make rows cols) i j = false.
Proof.
  unfold get, make.
  destruct (decide (i < rows)) as [Hi|Hi].
  - rewrite lookup_replicate_2 by done. simpl.
    destruct (decide (j < cols)) as [Hj|Hj].
    + by rewrite lookup_replicate_2.
    + rewrite (proj1 (lookup_replicate_None _ _ _)); [done|lia].
  - rewrite (proj1 (lookup_replicate_None _ _ _)); [done|lia].
Qed.

Lemma set_shaped rows cols dp i j v :
  shaped rows cols dp → shaped rows cols (set dp i j v).
Proof.
  unfold shaped, set. intros [Hlen Hrow].
  split; [by rewrite length_alter|].
  intros i' row. rewrite list_lookup_alter.
  case_decide as Heq; [|apply Hrow]. subst i'.
  destruct (dp !! i) as [r|] eqn:Hr; [|done].
  simpl. intros [= <-]. rewrite length_insert. by eapply Hrow.
Qed.

Lemma get_set rows cols dp i j v i' j' :
  shaped rows cols dp → i < rows → j < cols →
  get (set dp i j v) i' j' =
    if decide (i' = i ∧ j' = j) then v else get dp i' j'.
Proof.
  unfold shaped, get, set. intros [Hlen Hrow] Hi Hj.
  rewrite list_lookup_alter.
  destruct (lookup_lt_is_Some_2 dp i ltac:(lia)) as [r Hr].
  pose proof (Hrow _ _ Hr) as Hlr.
  case_decide as Hii.
  - subst i'. rewrite Hr. simpl.
    rewrite list_lookup_insert.
    destruct (decide (j = j' ∧ j < length r)) as [[-> _]|Hn].
    + by rewrite decide_True.
    + rewrite decide_False; [done|]. intros [_ ->]. apply Hn. lia.
  - rewrite decide_False; [done|]. intros [-> _]. done.
Qed.

End table.

(** ** The loops fill the table with [cell] *)

Lemma foldl_seq_invariant {A} (P : nat → A → Prop) (f : A → nat → A) len :
  ∀ a x,
    P a x →
    (∀ j y, a ≤ j < a + len → P j y → P (S j) (f y j)) →
    P (a + len) (foldl f x (seq a len)).
Proof.
  induction len as [|len IH]; intros a x Hx Hstep; simpl.
  - by rewrite Nat.add_0_r.
  - replace (a + S len) with (S a + len) by lia.
    apply IH.
    + apply Hstep; [lia|done].
    + intros j y Hj. apply Hstep. lia.
Qed.

Section matcher.
Import Table.
Variables s pattern : str.

Let n := length s.
Let m := length pattern.

Lemma cell_S i j :
  cell s pattern (S i) (S j) =
    if Ascii.eqb (char_at pattern j) "*"
    then cell s pattern (S i) j || cell s pattern i (S j)
    else if Ascii.eqb (char_at pattern j) "?"
            || Ascii.eqb (char_at pattern j) (char_at s i)
    then cell s pattern i j
    else false.
Proof. reflexivity. Qed.

Lemma cell_S_0 i : cell s pattern (S i) 0 = false.
Proof. reflexivity. Qed.

Lemma table_inv_start :
  table_inv s pattern 0 0 (set (make (n + 1) (m + 1)) 0 0 true).
Proof.
  split; [apply set_shaped, make_shaped|].
  intros i j Hi Hj.
  rewrite (get_set (n + 1) (m + 1)) by (apply make_shaped || lia).
  rewrite get_make. unfold filled.
  destruct (decide (i = 0 ∧ j = 0)) as [[-> ->]|Hne].
  - by rewrite decide_True by lia.
  - rewrite decide_False by lia. done.
Qed.

Lemma init_row_step_inv j dp :
  1 ≤ j ≤ m → table_inv s pattern 0 (j - 1) dp → table_inv s pattern 0 j (init_row_step pattern dp j).
Proof.
  intros Hj [Hsh Hval]. destruct j as [|j]; [lia|].
  replace (S j - 1) with j in * by lia.
  assert (Hprev : get dp 0 j = cell0 pattern j).
  { rewrite Hval by lia. rewrite decide_True; [done|]. unfold filled. lia. }
  assert (Hcur : get dp 0 (S j) = false).
  { rewrite Hval by lia. rewrite decide_False; [done|]. unfold filled. lia. }
  unfold init_row_step. replace (S j - 1) with j by lia.
  destruct (Ascii.eqb (char_at pattern j) "*") eqn:Hstar.
  - split; [by apply set_shaped|]. intros i' j' Hi' Hj'.
    rewrite (get_set (n + 1) (m + 1)) by (done || lia).
    rewrite (Hval i' j') by done. unfold filled.
    destruct (decide (i' = 0 ∧ j' = S j)) as [[-> ->]|Hne].
    + rewrite decide_True by lia. rewrite Hprev. simpl. by rewrite Hstar.
    + destruct (decide (i' < 0 ∨ i' = 0 ∧ j' ≤ j)), (decide (i' < 0 ∨ i' = 0 ∧ j' ≤ S j));
        (done || lia).
  - split; [done|]. intros i' j' Hi' Hj'.
    rewrite (Hval i' j') by done. unfold filled.
    destruct (decide (i' = 0 ∧ j' = S j)) as [[-> ->]|Hne].
    + rewrite decide_False by lia. rewrite decide_True by lia.
      simpl. by rewrite Hstar.
    + destruct (decide (i' < 0 ∨ i' = 0 ∧ j' ≤ j)), (decide (i' < 0 ∨ i' = 0 ∧ j' ≤ S j));
        (done || lia).
Qed.

Lemma fill_cell_inv i j dp :
  1 ≤ i ≤ n → 1 ≤ j ≤ m →
  table_inv s pattern i (j - 1) dp → table_inv s pattern i j (fill_cell s pattern i dp j).
Proof.
  intros Hi Hj [Hsh Hval].
  destruct i as [|i]; [lia|]. destruct j as [|j]; [lia|].
  replace (S j - 1) with j in * by lia.
  assert (Hleft : get dp (S i) j = cell s pattern (S i) j).
  { rewrite Hval by lia. rewrite decide_True; [done|]. unfold filled. lia. }
  assert (Hup : get dp i (S j) = cell s pattern i (S j)).
  { rewrite Hval by lia. rewrite decide_True; [done|]. unfold filled. lia. }
  assert (Hdiag : get dp i j = cell s pattern i j).
  { rewrite Hval by lia. rewrite decide_True; [done|]. unfold filled. lia. }
  assert (Hnew : ∀ v, v = cell s pattern (S i) (S j) →
                      table_inv s pattern (S i) (S j) (set dp (S i) (S j) v)).
  { intros v ->. split; [by apply set_shaped|]. intros i' j' Hi' Hj'.
    rewrite (get_set (n + 1) (m + 1)) by (done || lia).
    rewrite (Hval i' j') by done. unfold filled.
    destruct (decide (i' = S i ∧ j' = S j)) as [[-> ->]|Hne].
    - by rewrite decide_True by lia.
    - destruct (decide (i' < S i ∨ i' = S i ∧ j' ≤ j)),
        (decide (i' < S i ∨ i' = S i ∧ j' ≤ S j)); (done || lia). }
  unfold fill_cell. replace (S j - 1) with j by lia.
  replace (S i - 1) with i by lia.
  rewrite Hleft, Hup, Hdiag.
  destruct (Ascii.eqb (char_at pattern j) "*") eqn:Hstar;
    [apply Hnew; rewrite cell_S; by rewrite Hstar|].
  destruct (Ascii.eqb (char_at pattern j) "?"
            || Ascii.eqb (char_at pattern j) (char_at s i)) eqn:Hone;
    apply Hnew; rewrite cell_S; by rewrite Hstar, Hone.
Qed.

Lemma next_row_inv i dp :
  table_inv s pattern i m dp → table_inv s pattern (S i) 0 dp.
Proof.
  intros [Hsh Hval]. split; [done|]. intros i' j' Hi' Hj'.
  rewrite (Hval i' j') by done. unfold filled.
  destruct (decide (i' = S i ∧ j' = 0)) as [[-> ->]|Hne].
  - rewrite decide_False by lia. rewrite decide_True by lia. done.
  - destruct (decide (i' < i ∨ i' = i ∧ j' ≤ m)),
      (decide (i' < S i ∨ i' = S i ∧ j' ≤ 0)); (done || lia).
Qed.

Lemma fill_row_inv i dp :
  1 ≤ i ≤ n → table_inv s pattern i 0 dp → table_inv s pattern i m (fill_row s pattern dp i).
Proof.
  intros Hi Hdp. unfold fill_row. fold m.
  pose proof (foldl_seq_invariant (λ j, table_inv s pattern i (j - 1))
                (fill_cell s pattern i) m 1 dp) as H.
  simpl in H. replace (m - 0) with m in H by lia.
  apply H; [done|].
  intros j y Hj Hy. replace (j - 0) with j by lia.
  apply fill_cell_inv; [done|lia|done].
Qed.

Lemma fill_table_inv : table_inv s pattern n m (fill_table s pattern).
Proof.
  unfold fill_table. fold n m.
  set (dp1 := set _ 0 0 true).
  set (dp2 := foldl (init_row_step pattern) dp1 (seq 1 m)).
  assert (H2 : table_inv s pattern 0 m dp2).
  { pose proof (foldl_seq_invariant (λ j, table_inv s pattern 0 (j - 1))
                  (init_row_step pattern) m 1 dp1) as H.
    simpl in H. replace (m - 0) with m in H by lia.
    apply H; [apply table_inv_start|].
    intros j y Hj Hy. replace (j - 0) with j by lia.
    apply init_row_step_inv; [lia|done]. }
  pose proof (foldl_seq_invariant (λ i, table_inv s pattern (i - 1) m)
                (fill_row s pattern) n 1 dp2) as H.
  simpl in H. replace (n - 0) with n in H by lia.
  apply H; [done|].
  intros i y Hi Hy. replace (i - 0) with i by lia.
  apply fill_row_inv; [lia|].
  destruct i as [|i]; [lia|]. apply next_row_inv.
  by replace (S i - 1) with i in Hy by lia.
Qed.

Lemma fill_table_result :
  get (fill_table s pattern) n m = cell s pattern n m.
Proof.
  destruct fill_table_inv as [_ Hval].
  rewrite Hval by lia. rewrite decide_True; [done|]. unfold filled. lia.
Qed.

End matcher.

(** ** [cell] decides [matches] on prefixes *)

Lemma matches_nil_r text : matches text [] ↔ text = [].
Proof.
  split.
  - intros (segs & Hall & <-). apply Forall2_nil_inv_l in Hall. by subst.
  - intros ->. exists []. split; [constructor|done].
Qed.

Lemma matches_snoc c text pattern :
  matches text (pattern ++ [c]) ↔
  ∃ front seg, text = front ++ seg ∧ matches front pattern ∧ elem_matches c seg.
Proof.
  split.
  - intros (segs & Hall & <-).
    apply Forall2_app_inv_l in Hall as (k1 & k2 & H1 & H2 & ->).
    apply Forall2_cons_inv_l in H2 as (seg & k3 & Hseg & H3 & ->).
    apply Forall2_nil_inv_l in H3 as ->.
    exists (concat k1), seg. split; [|split; [by exists k1|done]].
    rewrite concat_app. simpl. by rewrite app_nil_r.
  - intros (front & seg & -> & (segs & Hall & <-) & Hseg).
    exists (segs ++ [seg]). split.
    + apply Forall2_app; [done|]. by repeat constructor.
    + rewrite concat_app. simpl. by rewrite app_nil_r.
Qed.

Lemma matches_snoc_star text pattern :
  matches text (pattern ++ ["*"]) ↔
  ∃ front seg, text = front ++ seg ∧ matches front pattern.
Proof.
  rewrite matches_snoc. split.
  - intros (front & seg & ? & ? & _). eauto.
  - intros (front & seg & ? & ?). exists front, seg. eauto using elem_matches.
Qed.

Lemma matches_snoc_one c x text pattern :
  c ≠ "*" → (c = "?" ∨ c = x) →
  matches (text ++ [x]) (pattern ++ [c]) ↔ matches text pattern.
Proof.
  intros Hstar Hc. rewrite matches_snoc. split.
  - intros (front & seg & Heq & Hm & Hseg).
    inversion Hseg; subst; try done;
      apply app_inj_tail in Heq as [-> _]; done.
  - intros Hm. exists text, [x]. split; [done|]. split; [done|].
    destruct (decide (c = "?")) as [->|Hq]; [constructor|].
    destruct Hc as [?| ->]; [done|]. by constructor.
Qed.

Lemma matches_snoc_mismatch c x text pattern :
  c ≠ "*" → c ≠ "?" → c ≠ x → ¬ matches (text ++ [x]) (pattern ++ [c]).
Proof.
  intros Hstar Hq Hx. rewrite matches_snoc.
  intros (front & seg & Heq & _ & Hseg).
  inversion Hseg; subst; try done.
  by apply app_inj_tail in Heq as [_ ->].
Qed.

Lemma matches_snoc_empty c pattern :
  c ≠ "*" → ¬ matches [] (pattern ++ [c]).
Proof.
  intros Hstar. rewrite matches_snoc.
  intros (front & seg & Heq & _ & Hseg).
  symmetry in Heq. apply app_eq_nil in Heq as [_ ->].
  inversion Hseg; by subst.
Qed.

Lemma matches_star_step x text pattern :
  matches (text ++ [x]) (pattern ++ ["*"]) ↔
  matches (text ++ [x]) pattern ∨ matches text (pattern ++ ["*"]).
Proof.
  rewrite !matches_snoc_star. split.
  - intros (front & seg & Heq & Hm).
    destruct (decide (seg = [])) as [->|Hne].
    + left. rewrite app_nil_r in Heq. by subst.
    + right. destruct (exists_last Hne) as (seg' & y & ->).
      rewrite app_assoc in Heq. apply app_inj_tail in Heq as [-> _]. eauto.
  - intros [Hm|(front & seg & -> & Hm)].
    + exists (text ++ [x]), []. by rewrite app_nil_r.
    + exists front, (seg ++ [x]). by rewrite app_assoc.
Qed.

Lemma take_snoc_char_at (l : str) k :
  k < length l → take (S k) l = take k l ++ [char_at l k].
Proof.
  intros Hk. destruct (lookup_lt_is_Some_2 l k Hk) as [c Hc].
  unfold char_at. rewrite Hc. simpl. by apply take_S_r.
Qed.

Lemma ascii_eqb_true a b : Ascii.eqb a b = true ↔ a = b.
Proof. apply Ascii.eqb_eq. Qed.

Lemma ascii_eqb_false a b : Ascii.eqb a b = false ↔ a ≠ b.
Proof. apply Ascii.eqb_neq. Qed.

Lemma cell0_matches pattern j :
  j ≤ length pattern →
  cell0 pattern j = true ↔ matches [] (take j pattern).
Proof.
  induction j as [|j IH]; intros Hj.
  - rewrite take_0, matches_nil_r. done.
  - rewrite take_snoc_char_at by lia. simpl.
    destruct (Ascii.eqb (char_at pattern j) "*") eqn:Hstar; simpl.
    + apply ascii_eqb_true in Hstar. rewrite Hstar.
      rewrite IH by lia. rewrite matches_snoc_star. split.
      * intros Hm. exists [], []. done.
      * intros (front & seg & Heq & Hm).
        symmetry in Heq. by apply app_eq_nil in Heq as [-> _].
    + apply ascii_eqb_false in Hstar. split; [done|].
      intros Hm. by apply matches_snoc_empty in Hm.
Qed.

Lemma cell_matches s pattern i j :
  i ≤ length s → j ≤ length pattern →
  cell s pattern i j = true ↔ matches (take i s) (take j pattern).
Proof.
  revert j. induction i as [|i IHi]; intros j Hi Hj.
  - rewrite take_0. simpl. by apply cell0_matches.
  - rewrite (take_snoc_char_at s) by lia.
    induction j as [|j IHj].
    + rewrite take_0, matches_nil_r, cell_S_0. split; [done|].
      intros Heq. by apply app_eq_nil in Heq as [_ ?].
    + rewrite (take_snoc_char_at pattern) by lia. rewrite cell_S.
      destruct (Ascii.eqb (char_at pattern j) "*") eqn:Hstar.
      { apply ascii_eqb_true in Hstar. rewrite Hstar.
        rewrite matches_star_step, orb_true_iff.
        rewrite IHj by lia. rewrite (IHi (S j)) by lia.
        rewrite (take_snoc_char_at pattern) by lia. by rewrite Hstar. }
      apply ascii_eqb_false in Hstar.
      destruct (Ascii.eqb (char_at pattern j) "?"
                || Ascii.eqb (char_at pattern j) (char_at s i)) eqn:Hone.
      * rewrite IHi by lia. symmetry. apply matches_snoc_one; [done|].
        apply orb_true_iff in Hone as [H|H]; apply ascii_eqb_true in H; auto.
      * apply orb_false_iff in Hone as [Hq Hx].
        apply ascii_eqb_false in Hq, Hx. split; [done|].
        intros Hm. by apply matches_snoc_mismatch in Hm.
Qed.

Lemma wildcardMatch_matches text pattern :
  wildcardMatch text pattern = true ↔ matches text pattern.
Proof.
  unfold wildcardMatch. destruct pattern as [|c pattern].
  - rewrite matches_nil_r. by destruct text.
  - rewrite fill_table_result.
    rewrite cell_matches by lia. by rewrite !firstn_all.
Qed.

(** C1. [wildcardMatch text pattern] is true exactly when the pattern
    matches the entire text: the text splits into one segment per pattern
    character, ['*'] taking any segment (also the empty one), ['?'] exactly
    one character, and any other character exactly itself.  In particular
    the empty pattern matches only the empty text. *)
Theorem wildcardMatch_spec (text pattern : str) :
  (wildcardMatch text pattern = true ↔ matches text pattern) ∧
  (wildcardMatch text [] = true ↔ text = []).
Proof.
  split; [apply wildcardMatch_matches|].
  by rewrite wildcardMatch_matches, matches_nil_r.
Qed.

Lemma matches_cons c text pattern :
  matches text (c :: pattern) ↔
  ∃ seg back, text = seg ++ back ∧ elem_matches c seg ∧ matches back pattern.
Proof.
  split.
  - intros (segs & Hall & <-).
    apply Forall2_cons_inv_l in Hall as (seg & k & Hseg & Hk & ->).
    exists seg, (concat k). split; [done|]. split; [done|by exists k].
  - intros (seg & back & -> & Hseg & (segs & Hall & <-)).
    exists (seg :: segs). split; [by constructor|done].
Qed.

Example wildcardMatch_examples :
  wildcardMatch (lit "") (lit "") = true ∧
  wildcardMatch (lit "anything") (lit "*") = true ∧
  wildcardMatch (lit "") (lit "*") = true ∧
  wildcardMatch (lit "a") (lit "?") = true ∧
  wildcardMatch (lit "") (lit "?") = false ∧
  wildcardMatch (lit "abc") (lit "a?c") = true ∧
  wildcardMatch (lit "abc") (lit "a?d") = false ∧
  wildcardMatch (lit "abc.txt") (lit "*.txt") = true ∧
  wildcardMatch (lit "abc.txtx") (lit "*.txt") = false ∧
  wildcardMatch (lit "ABC") (lit "abc") = false ∧
  wildcardMatch (lit "a*c") (lit "a?c") = true ∧
  wildcardMatch (lit "abc") (lit "") = false.
Proof. repeat split; reflexivity. Qed.

(** ** The text classifier *)

Lemma scan_bytes_Forall buffer :
  scan_bytes buffer = true ↔
  Forall (λ c, ¬ disqualifying (nat_of_ascii c)) buffer.
Proof.
  induction buffer as [|ch rest IH]; cbn [scan_bytes]; cbv zeta.
  - split; [constructor|done].
  - rewrite Forall_cons, <- IH. unfold disqualifying.
    destruct (Nat.eqb_spec (nat_of_ascii ch) 0) as [H0|H0],
      (Nat.ltb_spec (nat_of_ascii ch) 9) as [H9|H9],
      (Nat.ltb_spec 13 (nat_of_ascii ch)) as [H13|H13],
      (Nat.ltb_spec (nat_of_ascii ch) 32) as [H32|H32];
      cbn [orb andb];
      (split; [intros; (done || (split; [lia|done]))
              |intros [Hok ?]; (done || (exfalso; apply Hok; lia))]).
Qed.

(** C2. [isTextFile] answers true exactly when the file opens and none of
    its first min(1024, size) bytes is 0, below 9, or strictly between 13
    and 32; that is, every such byte is one of 9..13 or at least 32 (the
    values 128..255 included).  An empty file is text, a file that does not
    open is not. *)
Theorem isTextFile_spec :
  CHUNK_SIZE = 1024 ∧
  (∀ opened : option str,
     isTextFile opened = true ↔
     ∃ bytes, opened = Some bytes ∧
       ∀ k ch, k < Nat.min CHUNK_SIZE (length bytes) → bytes !! k = Some ch →
               ¬ disqualifying (nat_of_ascii ch)) ∧
  (∀ ch : ascii,
     ¬ disqualifying (nat_of_ascii ch) ↔
     (9 ≤ nat_of_ascii ch ≤ 13 ∨ 32 ≤ nat_of_ascii ch ≤ 255)) ∧
  isTextFile (Some []) = true ∧
  isTextFile None = false.
Proof.
  split; [done|]. split; [|split; [|done]].
  - intros [bytes|]; cbn [isTextFile].
    + rewrite scan_bytes_Forall, Forall_lookup. split.
      * intros H. exists bytes. split; [done|]. intros k ch Hk Hch.
        apply (H k). rewrite lookup_take_lt by lia. done.
      * intros (b & [= <-] & H) k ch Hk.
        pose proof (lookup_lt_Some _ _ _ Hk) as Hlen.
        rewrite length_take in Hlen.
        apply lookup_take_Some in Hk as [Hk _]. by apply (H k).
    + split; [done|]. by intros (b & ? & _).
  - intros ch. pose proof (nat_ascii_bounded ch). unfold disqualifying. lia.
Qed.

Example isTextFile_examples :
  isTextFile (Some (lit "int main() { return 0; }" ++ ["009"; "010"; "013"])) = true ∧
  isTextFile (Some (lit "ab" ++ [zero] ++ lit "cd")) = false ∧
  isTextFile (Some ["001"]) = false ∧
  isTextFile (Some ["027"]) = false ∧
  isTextFile (Some ["200"; "255"]) = true ∧
  isTextFile (Some (replicate 1024 "a" ++ [zero])) = true ∧
  isTextFile (Some (replicate 1023 "a" ++ [zero])) = false.
Proof. repeat split; vm_compute; reflexivity. Qed.

(** ** matchesAnyPattern *)

Lemma matchesAnyPattern_exists name patterns :
  matchesAnyPattern name patterns = true ↔
  ∃ pat, pat ∈ patterns ∧ wildcardMatch name pat = true.
Proof.
  induction patterns as [|pat rest IH]; simpl.
  - split; [done|]. intros (pat & Hin & _). by apply elem_of_nil in Hin.
  - destruct (wildcardMatch name pat) eqn:Hpat.
    + split; [|done]. intros _. exists pat. split; [left|done].
    + rewrite IH. split.
      * intros (p & Hin & Hp). exists p. split; [by right|done].
      * intros (p & Hin & Hp). apply elem_of_cons in Hin as [->|Hin].
        -- congruence.
        -- eauto.
Qed.

Lemma matchesAnyPattern_app name l1 l2 :
  matchesAnyPattern name (l1 ++ l2) =
  matchesAnyPattern name l1 || matchesAnyPattern name l2.
Proof.
  induction l1 as [|pat rest IH]; simpl; [done|].
  by destruct (wildcardMatch name pat).
Qed.

(** C6. [matchesAnyPattern name patterns] is true exactly when some pattern
    of the list matches the name (by [wildcardMatch], that is by [matches]),
    and a permutation of the list does not change the answer. *)
Theorem matchesAnyPattern_spec (name : str) (patterns patterns' : list str) :
  patterns ≡ₚ patterns' →
  (matchesAnyPattern name patterns = true ↔
     ∃ pat, pat ∈ patterns ∧ wildcardMatch name pat = true) ∧
  (matchesAnyPattern name patterns = true ↔
     ∃ pat, pat ∈ patterns ∧ matches name pat) ∧
  matchesAnyPattern name patterns' = matchesAnyPattern name patterns.
Proof.
  intros Hperm. split; [apply matchesAnyPattern_exists|]. split.
  - rewrite matchesAnyPattern_exists.
    split; intros (pat & Hin & Hm); exists pat; split; try done;
      by apply wildcardMatch_matches.
  - apply eq_true_iff_eq. rewrite !matchesAnyPattern_exists.
    split; intros (pat & Hin & Hm); exists pat; split; try done.
    + by rewrite Hperm.
    + by rewrite <- Hperm.
Qed.

Lemma matchesAnyPattern_spec_witness :
  let name := lit "main.o" in
  let patterns := [lit "*.o"; lit "build"; lit "?"] in
  let patterns' := [lit "?"; lit "build"; lit "*.o"] in
  matchesAnyPattern name patterns' = true ∧
  matchesAnyPattern name patterns' = matchesAnyPattern name patterns.
Proof.
  intros name patterns patterns'.
  assert (Hperm : patterns ≡ₚ patterns').
  { unfold patterns, patterns'.
    etrans; [apply Permutation_swap|].
    etrans; [apply Permutation_skip, Permutation_swap|].
    apply Permutation_swap. }
  destruct (matchesAnyPattern_spec name patterns patterns' Hperm) as (_ & _ & Heq).
  split; [reflexivity|exact Heq].
Defined.

(** ** The ignore file *)

Lemma spec_lines_until_newline s :
  ∃ tail,
    spec_lines s = (until_newline s).1 :: tail ∧
    (tail = spec_lines (until_newline s).2 ∨
     (tail = [] ∧ (until_newline s).2 = [])).
Proof.
  induction s as [|c s (tail & Heq & Htail)]; simpl.
  - exists []. split; [done|]. by right.
  - destruct (Ascii.eqb c newline); simpl.
    + exists (spec_lines s). split; [done|]. by left.
    + rewrite Heq. destruct (until_newline s) as [line rest]. simpl in *.
      exists tail. done.
Qed.

Lemma kept_patterns_cons line lines :
  kept_patterns (line :: lines) = kept_patterns [line] ++ kept_patterns lines.
Proof.
  unfold kept_patterns. rewrite !filter_cons, filter_nil.
  by destruct (decide (spec_kept line = true)).
Qed.

Lemma kept_patterns_getline file line rest :
  getline file = Some (line, rest) →
  kept_patterns (spec_lines file) =
  kept_patterns [line] ++ kept_patterns (spec_lines rest).
Proof.
  intros Hget.
  assert (Hun : until_newline file = (line, rest)).
  { destruct file; [done|]. unfold getline in Hget. congruence. }
  destruct (spec_lines_until_newline file) as (tail & Heq & Htail).
  rewrite Hun in Heq, Htail. simpl in *.
  rewrite Heq, kept_patterns_cons.
  destruct Htail as [->|[-> ->]]; [done|]. reflexivity.
Qed.

Lemma gitignore_line_spec line patterns :
  gitignore_line line patterns = patterns ++ kept_patterns [line].
Proof.
  unfold kept_patterns. rewrite filter_cons, filter_nil.
  destruct line as [|c tail]; cbn [gitignore_line spec_kept].
  - rewrite decide_False by done. by rewrite app_nil_r.
  - destruct (Ascii.eqb c "#"); cbn [negb].
    + rewrite decide_False by done. by rewrite app_nil_r.
    + rewrite decide_True by done. cbn [map spec_strip].
      by destruct (Ascii.eqb c "/").
Qed.

Lemma read_lines_spec file patterns :
  read_lines file patterns = patterns ++ spec_file_patterns file.
Proof.
  funelim (read_lines file patterns).
  - match goal with H : read_lines _ _ = _ ++ _ |- _ => rewrite H end.
    rewrite gitignore_line_spec. unfold spec_file_patterns.
    rewrite (kept_patterns_getline file line rest) by done.
    by rewrite app_assoc.
  - destruct file; [|discriminate].
    change (spec_file_patterns []) with (@nil str).
    by rewrite app_nil_r.
Qed.

Lemma parse_args_ignore_values programName values :
  ∀ targetDir ignorePatterns,
    parse_args programName (flat_map (λ v, [lit "-i"; v]) values)
      targetDir ignorePatterns =
    Proceed targetDir (ignorePatterns ++ values).
Proof.
  induction values as [|v values IH]; intros targetDir ignorePatterns.
  - by rewrite app_nil_r.
  - cbn [flat_map app]. change (is_help (lit "-i")) with false.
    cbn [parse_args]. change (is_help (lit "-i")) with false.
    change (is_dir (lit "-i")) with false.
    change (is_ignore (lit "-i")) with true. cbn iota.
    rewrite IH. by rewrite <- app_assoc.
Qed.

(** C5. The pattern set is the command-line patterns in their order,
    followed by one pattern for each line of [.gitignore], in file order,
    that is neither empty nor starts with ['#']: that line without one
    leading ['/'].  A missing or unopenable file adds nothing.  The
    patterns given with [-i] reach the walker in the order of the command
    line, before those of the file. *)
Theorem loadGitignorePatterns_spec (cli : list str) :
  (∀ bytes,
     loadGitignorePatterns (GiContent bytes) cli =
     Done (cli ++ map spec_strip
                    (filter (λ l, spec_kept l = true) (spec_lines bytes)))) ∧
  loadGitignorePatterns GiMissing cli = Done cli ∧
  loadGitignorePatterns GiUnopenable cli = Done cli ∧
  (∀ disable_recursion_pending programName w bytes entries,
     status w (current_path w) = Directory (GiContent bytes) entries →
     let walk :=
       dumpDirectory disable_recursion_pending entries
         (cli ++ map spec_strip
                   (filter (λ l, spec_kept l = true) (spec_lines bytes))) in
     main disable_recursion_pending
       (programName :: flat_map (λ v, [lit "-i"; v]) cli) w =
       (ending_of walk, OpenIgnore :: walk)).
Proof.
  split; [|split; [done|split; [done|]]].
  - intros bytes. cbn [loadGitignorePatterns]. by rewrite read_lines_spec.
  - intros drp programName w bytes entries Hstatus. unfold main. cbn [hd tl].
    rewrite parse_args_ignore_values, Hstatus. cbn [app].
    cbn [loadGitignorePatterns]. by rewrite read_lines_spec.
Qed.

Example loadGitignorePatterns_example :
  loadGitignorePatterns
    (GiContent (lit "#comment" ++ [newline; newline] ++ lit "/build" ++ [newline]
                ++ lit "//x" ++ [newline] ++ lit "*.o "))
    [lit "cli"] =
  Done [lit "cli"; lit "build"; lit "/x"; lit "*.o "].
Proof. reflexivity. Qed.

(** ** The walker *)

Lemma node_induction (P : node → Prop) :
  (∀ name probe body, P (File name probe body)) →
  (∀ name children, Forall P children → P (Dir name children)) →
  (∀ name, P (Locked name)) →
  ∀ entry, P entry.
Proof.
  intros P_file P_dir P_locked. fix IH 1.
  intros [name probe body|name children|name].
  - apply P_file.
  - apply P_dir. induction children as [|e l IHl]; constructor.
    + apply IH.
    + apply IHl.
  - apply P_locked.
Qed.


Lemma stderr_of_app tr1 tr2 : stderr_of (tr1 ++ tr2) = stderr_of tr1 ++ stderr_of tr2.
Proof.
  induction tr1 as [|a tr1 IH]; simpl; [done|].
  destruct a; rewrite ?IH; try done. by rewrite app_assoc.
Qed.

Lemma for_each_ext_Forall {A} (f g : A → list action) l :
  Forall (λ x, f x = g x) l → for_each f l = for_each g l.
Proof. induction 1 as [|x l Hx _ IH]; simpl; [done|]. by rewrite Hx, IH. Qed.




Lemma stderr_and_then tr1 tr2 :
  stderr_of (and_then tr1 tr2) =
  stderr_of tr1 ++ (if aborted tr1 then [] else stderr_of tr2).
Proof.
  unfold and_then. destruct (aborted tr1); [by rewrite app_nil_r|].
  apply stderr_of_app.
Qed.



(** C3. Whether a directory whose bare name matches is pruned rests on the
    call of line 152 alone.  With the root holding [build/keep.txt] and
    the pattern [build]: when the call keeps the iterator out of the
    directory the walk does nothing; when it leaves the iterator as it is
    (the entry of the loop has no member of that name) the walk enters
    [build] and writes the block of [keep.txt]. *)
Theorem pruning_rests_on_line_152 :
  let root :=
    [Dir (lit "build")
       [File (lit "keep.txt") (Some (lit "kept")) (Some (lit "kept"))]] in
  let patterns := [lit "build"] in
  dumpDirectory true root patterns = [] ∧
  dumpDirectory false root patterns =
    [Descend (lit "build");
     OpenProbe (lit "build/keep.txt"); OpenBody (lit "build/keep.txt")]
    ++ emit_file (lit "build/keep.txt") (lit "kept") ∧
  stdout_of (dumpDirectory false root patterns) =
    spec_block (lit "build/keep.txt") (lit "kept") ∧
  (∀ disable_recursion_pending patterns dir name children,
     matchesAnyPattern name patterns = true →
     dumpEntry disable_recursion_pending patterns dir (Dir name children) =
       if disable_recursion_pending then []
       else Descend (child_path dir name) ::
            for_each (dumpEntry false patterns (child_path dir name)) children).
Proof.
  cbv zeta. split; [reflexivity|]. split; [reflexivity|].
  split; [reflexivity|].
  intros drp patterns dir name children Hm. cbn [dumpEntry]. rewrite Hm.
  by destruct drp.
Qed.

Lemma stdout_emit_file relPath content :
  stdout_of (emit_file relPath content) = spec_block relPath content.
Proof.
  unfold emit_file, spec_block. cbn [stdout_of].
  rewrite app_nil_r. by rewrite <- !app_assoc.
Qed.

(** C4 as stated fails where the classifier's stream opens and shows text
    while the stream of the content read does not open: the file is
    unmatched and classified text, and nothing is written for it. *)
Lemma dumpFile_text_not_emitted :
  let relPath := lit "a.txt" in
  let probe := Some (lit "hello") in
  matchesAnyPattern relPath [] = false ∧
  isTextFile probe = true ∧
  stdout_of (dumpFile [] relPath relPath probe None) = [] ∧
  ∀ content,
    stdout_of (dumpFile [] relPath relPath probe None) ≠ spec_block relPath content.
Proof.
  cbv zeta. split; [done|]. split; [reflexivity|]. split; [reflexivity|].
  intros content. discriminate.
Qed.

(** C4, amended.  At a file entry: when the relative path or the bare name
    matches the pattern set, the walker does nothing (no stream is opened,
    nothing is written); otherwise, when the classifier deems it text and
    the stream of the content read opens, standard output receives exactly
    the block: opening tag line, the content as it is, closing tag line,
    blank line; when that stream does not open, nothing is written. *)
Theorem dumpFile_spec (patterns : list str) (relPath name : str)
    (probe body : option str) :
  (matchesAnyPattern relPath patterns = true ∨
   matchesAnyPattern name patterns = true →
   dumpFile patterns relPath name probe body = []) ∧
  (matchesAnyPattern relPath patterns = false →
   matchesAnyPattern name patterns = false →
   isTextFile probe = true →
   ∀ content, body = Some content →
     dumpFile patterns relPath name probe body =
       OpenProbe relPath :: OpenBody relPath :: emit_file relPath content ∧
     stdout_of (dumpFile patterns relPath name probe body) =
       spec_block relPath content ∧
     spec_block relPath content =
       lit "<file path=" ++ [dquote] ++ relPath ++ [dquote] ++ lit ">" ++ [newline]
       ++ content ++ [newline] ++ lit "</file>" ++ [newline] ++ [newline]) ∧
  (body = None → stdout_of (dumpFile patterns relPath name probe body) = []).
Proof.
  split; [|split].
  - intros H. unfold dumpFile.
    destruct H as [-> | ->]; [done|]. by rewrite orb_true_r.
  - intros Hrel Hname Htext content ->.
    unfold dumpFile. rewrite Hrel, Hname, Htext. cbn [orb negb].
    split; [done|]. split; [|done].
    cbn [stdout_of]. apply stdout_emit_file.
  - intros ->. unfold dumpFile.
    destruct (_ || _); [done|]. by destruct (negb _).
Qed.

Example dumpDirectory_example :
  let root :=
    [ File (lit "a.txt") (Some (lit "hello")) (Some (lit "hello"));
      File (lit "b.bin") (Some [zero; "001"]) (Some [zero; "001"]);
      Dir (lit "node_modules")
        [File (lit "x.txt") (Some (lit "x")) (Some (lit "x"))];
      Dir (lit "src")
        [File (lit "m.c") (Some (lit "int x;")) (Some (lit "int x;"))] ] in
  let patterns := [lit "node_modules"; lit "*.bin"] in
  dumpDirectory true root patterns =
    [OpenProbe (lit "a.txt"); OpenBody (lit "a.txt")]
    ++ emit_file (lit "a.txt") (lit "hello")
    ++ [Descend (lit "src"); OpenProbe (lit "src/m.c"); OpenBody (lit "src/m.c")]
    ++ emit_file (lit "src/m.c") (lit "int x;") ∧
  stdout_of (dumpDirectory true root patterns) =
    spec_block (lit "a.txt") (lit "hello") ++ spec_block (lit "src/m.c") (lit "int x;") ∧
  stdout_of (dumpDirectory false root patterns) =
    spec_block (lit "a.txt") (lit "hello")
    ++ spec_block (lit "node_modules/x.txt") (lit "x")
    ++ spec_block (lit "src/m.c") (lit "int x;").
Proof. repeat split; reflexivity. Qed.

(** ** Streams that do not open, calls that throw *)




Lemma stderr_for_each {A} (f : A → list action) l :
  Forall (λ e, stderr_of (f e) = []) l → stderr_of (for_each f l) = [].
Proof.
  induction 1 as [|e l He _ IH]; [done|].
  cbn [for_each]. rewrite stderr_and_then, He, IH. by destruct (aborted _).
Qed.

Lemma stderr_dumpEntry drp patterns entry :
  ∀ dir, stderr_of (dumpEntry drp patterns dir entry) = [].
Proof.
  induction entry as [name probe body|name children IH|name] using node_induction;
    intros dir; cbn [dumpEntry].
  - unfold dumpFile.
    destruct (_ || _); [done|]. cbn [stderr_of].
    destruct (negb _); [done|]. by destruct body.
  - destruct (matchesAnyPattern name patterns && drp); [done|].
    cbn [stderr_of]. apply stderr_for_each.
    eapply Forall_impl; [exact IH|]. intros e He. apply He.
  - by destruct (matchesAnyPattern name patterns && drp).
Qed.

Lemma stderr_dumpDirectory drp entries patterns :
  stderr_of (dumpDirectory drp entries patterns) = [].
Proof.
  unfold dumpDirectory. apply stderr_for_each, Forall_forall.
  intros e _. apply stderr_dumpEntry.
Qed.


(** C7. Where the run does not go on: the check of line 121 on
    [.gitignore] is [fs::exists] in its throwing form, and when it throws
    nothing catches the exception.  [loadGitignorePatterns] then adds no
    pattern and does not return either; the run is terminated before the
    walk, whatever the arguments left of the scan root and whatever the
    tree holds. *)
Theorem gitignore_check_terminates (disable_recursion_pending : bool)
    (programName cwd : str) (cli : list str) (entries : list node) :
  loadGitignorePatterns GiRaises cli = Raised ∧
  main disable_recursion_pending [programName]
    {| current_path := cwd; status := λ _, Directory GiRaises entries |} =
    (Aborts, [Terminate]) ∧
  main disable_recursion_pending [programName]
    {| current_path := cwd; status := λ _, Directory GiMissing [] |} =
    (Returns 0, []).
Proof. repeat split; reflexivity. Qed.

(** ** The empty pattern *)

Lemma wildcardMatch_empty_pattern name :
  name ≠ [] → wildcardMatch name [] = false.
Proof. by destruct name. Qed.

Lemma matchesAnyPattern_drop_empty name l1 l2 :
  name ≠ [] →
  matchesAnyPattern name (l1 ++ [] :: l2) = matchesAnyPattern name (l1 ++ l2).
Proof.
  intros Hne. rewrite !matchesAnyPattern_app. cbn [matchesAnyPattern].
  by rewrite wildcardMatch_empty_pattern.
Qed.

Lemma child_path_nonempty dir name : name ≠ [] → child_path dir name ≠ [].
Proof.
  intros Hne. destruct dir as [|c dir]; [done|]. simpl. discriminate.
Qed.

Lemma dumpEntry_drop_empty drp l1 l2 entry :
  named entry = true →
  ∀ dir,
    dumpEntry drp (l1 ++ [] :: l2) dir entry = dumpEntry drp (l1 ++ l2) dir entry.
Proof.
  induction entry as [name probe body|name children IH|name] using node_induction;
    cbn [named]; intros Hnamed dir.
  - assert (Hne : name ≠ []) by (by destruct name).
    cbn [dumpEntry]. unfold dumpFile.
    rewrite !matchesAnyPattern_drop_empty; auto using child_path_nonempty.
  - assert (Hne : name ≠ []) by (by destruct name).
    assert (Hch : forallb named children = true) by (by destruct name).
    cbn [dumpEntry]. rewrite matchesAnyPattern_drop_empty by done.
    destruct (matchesAnyPattern name (l1 ++ l2) && drp); [done|]. f_equal.
    apply for_each_ext_Forall.
    rewrite forallb_forall in Hch. rewrite Forall_forall in IH |- *.
    intros e He. apply IH; [done|]. apply Hch. by apply list_elem_of_In.
  - assert (Hne : name ≠ []) by (by destruct name).
    cbn [dumpEntry]. by rewrite matchesAnyPattern_drop_empty.
Qed.

(** C9. A line of [.gitignore] that is just ['/'] puts the empty pattern
    into the pattern set.  The empty pattern matches no non-empty name, so
    on a tree whose entries have non-empty names the walk with it is the
    walk without it: the line excludes nothing. *)
Theorem slash_line_excludes_nothing (disable_recursion_pending : bool)
    (bytes : str) (cli l1 l2 : list str) (entries : list node) :
  lit "/" ∈ spec_lines bytes →
  forallb named entries = true →
  (∃ patterns,
     loadGitignorePatterns (GiContent bytes) cli = Done patterns ∧
     [] ∈ patterns) ∧
  gitignore_line (lit "/") cli = cli ++ [[]] ∧
  (∀ name, name ≠ [] →
     wildcardMatch name [] = false ∧
     matchesAnyPattern name (l1 ++ [] :: l2) = matchesAnyPattern name (l1 ++ l2)) ∧
  dumpDirectory disable_recursion_pending entries (l1 ++ [] :: l2) =
  dumpDirectory disable_recursion_pending entries (l1 ++ l2).
Proof.
  intros Hline Hnamed. split; [|split; [done|split]].
  - cbn [loadGitignorePatterns]. eexists. split; [done|]. rewrite read_lines_spec.
    apply elem_of_app. right. unfold spec_file_patterns, kept_patterns.
    apply list_elem_of_fmap. exists (lit "/"). split; [done|].
    by apply list_elem_of_filter.
  - intros name Hne. split.
    + by apply wildcardMatch_empty_pattern.
    + by apply matchesAnyPattern_drop_empty.
  - unfold dumpDirectory. apply for_each_ext_Forall, Forall_forall.
    intros e He. apply dumpEntry_drop_empty.
    rewrite forallb_forall in Hnamed. apply Hnamed. by apply list_elem_of_In.
Qed.

Lemma slash_line_excludes_nothing_witness :
  let bytes := lit "*.o" ++ [newline] ++ lit "/" ++ [newline] ++ lit "#x" in
  let entries := [Dir (lit "src") [File (lit "main.o") (Some (lit "x")) (Some (lit "x"));
                                   File (lit "main.c") (Some (lit "y")) (Some (lit "y"))]] in
  loadGitignorePatterns (GiContent bytes) [lit "out"] =
    Done [lit "out"; lit "*.o"; []] ∧
  dumpDirectory true entries ([lit "out"; lit "*.o"] ++ [] :: []) =
  dumpDirectory true entries ([lit "out"; lit "*.o"] ++ []).
Proof.
  intros bytes entries.
  assert (Hline : lit "/" ∈ spec_lines bytes).
  { apply list_elem_of_In. vm_compute. right. left. reflexivity. }
  pose proof (slash_line_excludes_nothing true bytes [lit "out"]
                [lit "out"; lit "*.o"] [] entries Hline eq_refl) as (_ & _ & _ & H).
  split; [reflexivity|exact H].
Defined.

(** ** The argument loop *)

Lemma str_eqb_eq a b : str_eqb a b = true ↔ a = b.
Proof.
  revert b. induction a as [|x a IH]; intros [|y b]; simpl; try done.
  rewrite andb_true_iff, IH, Ascii.eqb_eq. split.
  - by intros [-> ->].
  - by intros [= -> ->].
Qed.

Lemma value_flag_not_help flag :
  is_dir flag || is_ignore flag = true → is_help flag = false.
Proof.
  unfold is_dir, is_ignore. rewrite !orb_true_iff, !str_eqb_eq.
  intros [[-> | ->] | [-> | ->]]; reflexivity.
Qed.

Lemma parse_args_app programName pre :
  ∀ targetDir ignorePatterns targetDir' ignorePatterns' rest,
    parse_args programName pre targetDir ignorePatterns =
      Proceed targetDir' ignorePatterns' →
    parse_args programName (pre ++ rest) targetDir ignorePatterns =
      parse_args programName rest targetDir' ignorePatterns'.
Proof.
  assert (H : ∀ n pre, length pre ≤ n →
    ∀ targetDir ignorePatterns targetDir' ignorePatterns' rest,
      parse_args programName pre targetDir ignorePatterns =
        Proceed targetDir' ignorePatterns' →
      parse_args programName (pre ++ rest) targetDir ignorePatterns =
        parse_args programName rest targetDir' ignorePatterns').
  { clear pre. induction n as [|n IH]; intros pre Hlen d i d' i' rest.
    - destruct pre; [|simpl in Hlen; lia]. by intros [= -> ->].
    - destruct pre as [|arg [|value pre]].
      + by intros [= -> ->].
      + simpl. by destruct (is_help arg).
      + cbn [parse_args app]. destruct (is_help arg); [done|].
        destruct (is_dir arg); [apply IH; simpl in Hlen; lia|].
        destruct (is_ignore arg); [apply IH; simpl in Hlen; lia|done]. }
  by apply (H (length pre)).
Qed.

(** C8. When the argument loop comes to [-d], [--dir], [-i] or [--ignore]
    as the last argument, with no value after it, the run writes
    [Unrecognized option: ...] to standard error (and the usage text to
    standard output), exits with code 1, and touches nothing of the tree. *)
Theorem missing_value_is_error (disable_recursion_pending : bool)
    (programName : str) (pre : list str) (flag : str)
    (w : world) (targetDir : str) (ignorePatterns : list str) :
  is_dir flag || is_ignore flag = true →
  parse_args programName pre (current_path w) [] = Proceed targetDir ignorePatterns →
  main disable_recursion_pending (programName :: pre ++ [flag]) w =
    (Returns 1,
     Cerr (lit "Unrecognized option: " ++ flag ++ [newline]) :: printUsage programName) ∧
  (main disable_recursion_pending (programName :: pre ++ [flag]) w).1 = Returns 1 ∧
  stderr_of (main disable_recursion_pending (programName :: pre ++ [flag]) w).2 =
    lit "Unrecognized option: " ++ flag ++ [newline] ∧
  scans (main disable_recursion_pending (programName :: pre ++ [flag]) w).2 = false.
Proof.
  intros Hflag Hpre.
  assert (Hmain : main disable_recursion_pending (programName :: pre ++ [flag]) w =
    (Returns 1,
     Cerr (lit "Unrecognized option: " ++ flag ++ [newline]) :: printUsage programName)).
  { unfold main. cbn [hd tl].
    rewrite (parse_args_app _ _ _ _ _ _ _ Hpre).
    cbn [parse_args]. by rewrite (value_flag_not_help _ Hflag). }
  rewrite Hmain. split; [done|]. split; [done|]. split; [|done].
  cbn [snd stderr_of printUsage]. by rewrite app_nil_r.
Qed.

Lemma missing_value_is_error_witness :
  let w := {| current_path := lit "/work"; status := λ _, Directory GiMissing [] |} in
  main true [lit "dump"; lit "-i"; lit "*.o"; lit "--dir"] w =
    (Returns 1,
     Cerr (lit "Unrecognized option: --dir" ++ [newline]) :: printUsage (lit "dump")).
Proof.
  intros w.
  exact (proj1 (missing_value_is_error true (lit "dump") [lit "-i"; lit "*.o"]
                  (lit "--dir") w (lit "/work") [lit "*.o"] eq_refl eq_refl)).
Defined.

(** C10. The token after [-d], [--dir], [-i] or [--ignore] is taken as the
    flag's value whatever it is.  With the arguments [-i --help] the loop
    ends with the pattern [--help] in the ignore list, and the run goes on
    to the scan root (its check, the ignore file, the walk with [--help]
    among the patterns): it does not print the usage text and return as
    [--help] in flag position does. *)
Theorem flag_value_taken_as_is (disable_recursion_pending : bool)
    (programName value targetDir : str)
    (rest ignorePatterns : list str) (w : world) :
  parse_args programName (lit "-d" :: value :: rest) targetDir ignorePatterns =
    parse_args programName rest value ignorePatterns ∧
  parse_args programName (lit "--dir" :: value :: rest) targetDir ignorePatterns =
    parse_args programName rest value ignorePatterns ∧
  parse_args programName (lit "-i" :: value :: rest) targetDir ignorePatterns =
    parse_args programName rest targetDir (ignorePatterns ++ [value]) ∧
  parse_args programName (lit "--ignore" :: value :: rest) targetDir ignorePatterns =
    parse_args programName rest targetDir (ignorePatterns ++ [value]) ∧
  parse_args programName [lit "-i"; lit "--help"] targetDir ignorePatterns =
    Proceed targetDir (ignorePatterns ++ [lit "--help"]) ∧
  main disable_recursion_pending [programName; lit "-i"; lit "--help"] w =
    match status w (current_path w) with
    | Directory gi entries =>
        match loadGitignorePatterns gi [lit "--help"] with
        | Done patterns =>
            let tr := match gi with GiMissing => [] | _ => [OpenIgnore] end
                      ++ dumpDirectory disable_recursion_pending entries patterns in
            (ending_of tr, tr)
        | Raised => (Aborts, [Terminate])
        end
    | Unlistable gi =>
        match loadGitignorePatterns gi [lit "--help"] with
        | Done _ =>
            (Aborts,
             match gi with GiMissing => [] | _ => [OpenIgnore] end ++ [Terminate])
        | Raised => (Aborts, [Terminate])
        end
    | Raises => (Aborts, [Terminate])
    | Absent | NotDirectory =>
        (Returns 1,
         [Cerr (lit "Directory " ++ quoted (current_path w)
                ++ lit " does not exist or is not a directory." ++ [newline])])
    end ∧
  (∀ gi entries patterns,
     status w (current_path w) = Directory gi entries →
     loadGitignorePatterns gi [lit "--help"] = Done patterns →
     lit "--help" ∈ patterns ∧
     (main disable_recursion_pending [programName; lit "-i"; lit "--help"] w).2 =
       match gi with GiMissing => [] | _ => [OpenIgnore] end
       ++ dumpDirectory disable_recursion_pending entries patterns) ∧
  main disable_recursion_pending [programName; lit "--help"] w =
    (Returns 0, printUsage programName).
Proof.
  split; [reflexivity|]. split; [reflexivity|]. split; [reflexivity|].
  split; [reflexivity|]. split; [reflexivity|]. split; [reflexivity|].
  split; [|reflexivity].
  intros gi entries patterns Hstatus Hload. split.
  - destruct gi; cbn [loadGitignorePatterns] in Hload; try discriminate;
      injection Hload as <-; try (apply list_elem_of_singleton; reflexivity).
    rewrite read_lines_spec. apply elem_of_app. left.
    apply list_elem_of_singleton. reflexivity.
  - unfold main. cbn [hd tl].
    change (parse_args programName [lit "-i"; lit "--help"] (current_path w) [])
      with (Proceed (current_path w) [lit "--help"]).
    cbv beta iota. by rewrite Hstatus, Hload.
Qed.

(** * Further properties *)

(** ** split *)

Lemma split_foldl delimiter s :
  ∀ st,
    (foldl (split_step delimiter) st s).1
    ++ flush (foldl (split_step delimiter) st s).2 =
    st.1 ++ split_from delimiter st.2 s.
Proof.
  induction s as [|c s IH]; intros st; [done|].
  cbn [foldl split_from]. rewrite IH. unfold split_step.
  destruct (Ascii.eqb c delimiter); cbn [fst snd]; [|done].
  by rewrite <- app_assoc.
Qed.

Lemma split_split_from s delimiter : split s delimiter = split_from delimiter [] s.
Proof. unfold split. by rewrite split_foldl. Qed.

Lemma flush_is_token delimiter token :
  delimiter ∉ token → Forall (is_token delimiter) (flush token).
Proof. intros H. destruct token; [constructor|]. by repeat constructor. Qed.

Lemma split_from_tokens delimiter s :
  ∀ token, delimiter ∉ token →
    Forall (is_token delimiter) (split_from delimiter token s).
Proof.
  induction s as [|c s IH]; intros token Htoken; cbn [split_from].
  - by apply flush_is_token.
  - destruct (Ascii.eqb c delimiter) eqn:Hc.
    + apply Forall_app. split; [by apply flush_is_token|].
      apply IH. apply not_elem_of_nil.
    + apply IH. apply ascii_eqb_false in Hc.
      rewrite elem_of_app, list_elem_of_singleton.
      intros [Hin|Heq]; [by apply Htoken|by apply Hc].
Qed.

Lemma concat_flush token : concat (flush token) = token.
Proof. destruct token; [done|]. cbn. by rewrite app_nil_r. Qed.

Lemma split_from_concat delimiter s :
  ∀ token,
    concat (split_from delimiter token s) =
    token ++ filter (λ c, c ≠ delimiter) s.
Proof.
  induction s as [|c s IH]; intros token; cbn [split_from].
  - by rewrite concat_flush, filter_nil, app_nil_r.
  - rewrite filter_cons. destruct (Ascii.eqb c delimiter) eqn:Hc.
    + apply ascii_eqb_true in Hc. rewrite decide_False by naive_solver.
      by rewrite concat_app, concat_flush, IH.
    + apply ascii_eqb_false in Hc. rewrite decide_True by done.
      rewrite IH. by rewrite <- app_assoc.
Qed.

Lemma split_from_app delimiter s1 s2 :
  ∀ token,
    split_from delimiter token (s1 ++ delimiter :: s2) =
    split_from delimiter token s1 ++ split_from delimiter [] s2.
Proof.
  induction s1 as [|c s1 IH]; intros token; cbn [app split_from].
  - by rewrite Ascii.eqb_refl.
  - destruct (Ascii.eqb c delimiter); [|apply IH].
    by rewrite IH, app_assoc.
Qed.

Lemma split_from_token delimiter s :
  ∀ token, delimiter ∉ s →
    split_from delimiter token s = flush (token ++ s).
Proof.
  induction s as [|c s IH]; intros token Hs; cbn [split_from].
  - by rewrite app_nil_r.
  - apply not_elem_of_cons in Hs as [Hc Hs].
    rewrite (proj2 (ascii_eqb_false c delimiter)) by done.
    rewrite IH by done. by rewrite <- app_assoc.
Qed.

Lemma split_from_join delimiter tokens :
  Forall (is_token delimiter) tokens →
  split_from delimiter [] (join delimiter tokens) = tokens.
Proof.
  induction 1 as [|token rest [Hne Hd] Hrest IH]; [done|].
  destruct rest as [|token' rest].
  - cbn [join]. rewrite split_from_token by done. by destruct token.
  - change (join delimiter (token :: token' :: rest))
      with (token ++ delimiter :: join delimiter (token' :: rest)).
    rewrite split_from_app, IH, split_from_token by done.
    by destruct token.
Qed.

(** X1. Every token [split] returns is non-empty and free of the
    delimiter, and the tokens, one after the other, are the characters of
    the string other than the delimiter, in their order. *)
Theorem split_tokens (s : str) (delimiter : ascii) :
  Forall (is_token delimiter) (split s delimiter) ∧
  concat (split s delimiter) = filter (λ c, c ≠ delimiter) s.
Proof.
  rewrite split_split_from. split.
  - apply split_from_tokens, not_elem_of_nil.
  - by rewrite split_from_concat.
Qed.

(** X2. Splitting at a delimiter composes: the tokens of [s1], the
    delimiter, [s2] are those of [s1] followed by those of [s2].  So
    leading, trailing and repeated delimiters add no token, and a string of
    delimiters only (the empty one too) gives no token at all. *)
Theorem split_app (s1 s2 : str) (delimiter : ascii) :
  split (s1 ++ delimiter :: s2) delimiter =
    split s1 delimiter ++ split s2 delimiter ∧
  split (delimiter :: s1) delimiter = split s1 delimiter ∧
  split (s1 ++ [delimiter]) delimiter = split s1 delimiter ∧
  (split s1 delimiter = [] ↔ Forall (λ c, c = delimiter) s1).
Proof.
  rewrite !split_split_from. split; [apply split_from_app|].
  split; [cbn [split_from]; by rewrite Ascii.eqb_refl|].
  split; [by rewrite split_from_app, app_nil_r|].
  split.
  - intros Hnil. pose proof (split_from_concat delimiter s1 []) as Hc.
    rewrite Hnil in Hc. cbn in Hc. symmetry in Hc.
    apply Forall_forall. intros c Hin.
    destruct (decide (c = delimiter)) as [|Hne]; [done|].
    assert (c ∈ filter (λ c, c ≠ delimiter) s1) as Hf
      by (by apply list_elem_of_filter).
    rewrite Hc in Hf. by apply elem_of_nil in Hf.
  - intros Hall.
    assert (Hgen : ∀ token, split_from delimiter token s1 = flush token).
    { induction Hall as [|c s ->  _ IH]; intros token; [done|].
      cbn [split_from]. rewrite Ascii.eqb_refl, IH. apply app_nil_r. }
    apply Hgen.
Qed.

(** X3. Round trip: a list of tokens, each non-empty and free of the
    delimiter, joined with the delimiter between them, splits back into
    the same list. *)
Theorem split_join (tokens : list str) (delimiter : ascii) :
  Forall (is_token delimiter) tokens →
  split (join delimiter tokens) delimiter = tokens.
Proof. intros H. rewrite split_split_from. by apply split_from_join. Qed.

Lemma split_join_witness :
  split (join "," [lit "a"; lit "bc"; lit "d"]) "," = [lit "a"; lit "bc"; lit "d"].
Proof.
  apply split_join. repeat constructor; try discriminate;
    intros Hin; repeat (apply elem_of_cons in Hin as [Hin|Hin]; [discriminate|]);
    by apply elem_of_nil in Hin.
Defined.

(** ** More on wildcardMatch *)

Lemma matches_app text p1 p2 :
  matches text (p1 ++ p2) ↔
  ∃ t1 t2, text = t1 ++ t2 ∧ matches t1 p1 ∧ matches t2 p2.
Proof.
  split.
  - intros (segs & Hall & <-).
    apply Forall2_app_inv_l in Hall as (k1 & k2 & H1 & H2 & ->).
    exists (concat k1), (concat k2). rewrite concat_app.
    split; [done|]. split; [by exists k1|by exists k2].
  - intros (t1 & t2 & -> & (k1 & H1 & <-) & (k2 & H2 & <-)).
    exists (k1 ++ k2). split; [by apply Forall2_app|by rewrite concat_app].
Qed.

Lemma literal_cons c pattern :
  literal (c :: pattern) = true ↔ c ≠ "*" ∧ c ≠ "?" ∧ literal pattern = true.
Proof.
  unfold literal. cbn [forallb].
  rewrite !andb_true_iff, !negb_true_iff, !ascii_eqb_false. tauto.
Qed.

Lemma matches_literal text pattern :
  literal pattern = true → matches text pattern ↔ text = pattern.
Proof.
  revert text. induction pattern as [|c pattern IH]; intros text Hlit.
  - apply matches_nil_r.
  - apply literal_cons in Hlit as (Hs & Hq & Hlit). rewrite matches_cons. split.
    + intros (seg & back & -> & Hseg & Hback).
      apply IH in Hback; [|done]. subst back.
      inversion Hseg; by subst.
    + intros ->. exists [c], pattern. split; [done|].
      split; [by constructor|by apply IH].
Qed.

Lemma matches_star_front text pattern :
  matches text ("*" :: pattern) ↔ ∃ front back, text = front ++ back ∧ matches back pattern.
Proof.
  rewrite matches_cons. split.
  - intros (seg & back & ? & _ & ?). eauto.
  - intros (front & back & ? & ?). exists front, back. eauto using elem_matches.
Qed.

Lemma elem_matches_length c seg :
  elem_matches c seg → c ≠ "*" → length seg = 1.
Proof. by destruct 1. Qed.

Lemma matches_fixed_chars text pattern :
  matches text pattern → fixed_chars pattern ≤ length text.
Proof.
  intros (segs & Hall & <-). unfold fixed_chars.
  induction Hall as [|c seg pattern segs Hseg _ IH]; [done|].
  cbn [concat]. rewrite length_app, filter_cons.
  destruct (decide (c ≠ "*")) as [Hc|Hc]; [|lia].
  rewrite (elem_matches_length c seg) by done. cbn [length]. lia.
Qed.

Lemma matches_no_star_length text pattern :
  "*" ∉ pattern → matches text pattern → length text = length pattern.
Proof.
  intros Hstar (segs & Hall & <-).
  induction Hall as [|c seg pattern segs Hseg _ IH]; [done|].
  apply not_elem_of_cons in Hstar as [Hc Hstar].
  cbn [concat]. rewrite length_app, IH by done.
  rewrite (elem_matches_length c seg) by done. done.
Qed.

Lemma matches_literal_char c text pattern :
  c ≠ "*" → c ≠ "?" → c ∈ pattern → matches text pattern → c ∈ text.
Proof.
  intros Hs Hq Hin Hm.
  apply list_elem_of_split in Hin as (p1 & p2 & ->).
  apply matches_app in Hm as (t1 & t2 & -> & _ & Hm).
  apply matches_cons in Hm as (seg & back & -> & Hseg & _).
  inversion Hseg; subst; try done.
  rewrite !elem_of_app, list_elem_of_singleton. auto.
Qed.

Lemma elem_matches_reverse c seg :
  elem_matches c seg → elem_matches c (reverse seg).
Proof. destruct 1; rewrite ?reverse_singleton; by constructor. Qed.

Lemma concat_reverse (segs : list str) :
  concat (reverse (reverse <$> segs)) = reverse (concat segs).
Proof.
  induction segs as [|seg segs IH]; [done|].
  cbn [fmap list_fmap concat]. rewrite reverse_cons, concat_app, IH.
  cbn [concat]. by rewrite app_nil_r, reverse_app.
Qed.

Lemma matches_reverse_1 text pattern :
  matches text pattern → matches (reverse text) (reverse pattern).
Proof.
  intros (segs & Hall & <-). exists (reverse (reverse <$> segs)).
  split; [|apply concat_reverse].
  induction Hall as [|c seg pattern segs Hseg _ IH]; [constructor|].
  cbn [fmap list_fmap]. rewrite !reverse_cons.
  apply Forall2_app; [done|].
  repeat constructor. by apply elem_matches_reverse.
Qed.

Lemma matches_reverse text pattern :
  matches (reverse text) (reverse pattern) ↔ matches text pattern.
Proof.
  split; [|apply matches_reverse_1].
  intros H%matches_reverse_1. by rewrite !reverse_involutive in H.
Qed.

(** X4. Matching composes over concatenation: the pattern [p1 ++ p2]
    matches a text exactly when the text splits into a part that [p1]
    matches followed by a part that [p2] matches. *)
Theorem wildcardMatch_app (text p1 p2 : str) :
  wildcardMatch text (p1 ++ p2) = true ↔
  ∃ t1 t2, text = t1 ++ t2 ∧
    wildcardMatch t1 p1 = true ∧ wildcardMatch t2 p2 = true.
Proof.
  rewrite wildcardMatch_matches, matches_app.
  split; intros (t1 & t2 & Heq & H1 & H2); exists t1, t2;
    (split; [done|]); split; by apply wildcardMatch_matches.
Qed.

(** X5. A pattern without ['*'] and ['?'] matches a text exactly when the
    text is the pattern: matching is then string equality, case and all. *)
Theorem wildcardMatch_literal (text pattern : str) :
  literal pattern = true →
  (wildcardMatch text pattern = true ↔ text = pattern).
Proof. intros H. rewrite wildcardMatch_matches. by apply matches_literal. Qed.

Lemma wildcardMatch_literal_witness :
  (wildcardMatch (lit "Makefile") (lit "Makefile") = true ↔
   lit "Makefile" = lit "Makefile") ∧
  (wildcardMatch (lit "makefile") (lit "Makefile") = true ↔
   lit "makefile" = lit "Makefile").
Proof.
  split; apply wildcardMatch_literal; reflexivity.
Defined.

(** X6. With a literal [word]: ['*' word] matches exactly the texts that
    end in [word], [word '*'] those that begin with it, and ['*' word '*']
    those that contain it; ['*'] alone matches every text. *)
Theorem wildcardMatch_star_literal (text word : str) :
  literal word = true →
  (wildcardMatch text ("*" :: word) = true ↔ word `suffix_of` text) ∧
  (wildcardMatch text (word ++ ["*"]) = true ↔ word `prefix_of` text) ∧
  (wildcardMatch text ("*" :: word ++ ["*"]) = true ↔
     ∃ before after, text = before ++ word ++ after) ∧
  wildcardMatch text ["*"] = true.
Proof.
  intros Hlit. rewrite !wildcardMatch_matches. split; [|split; [|split]].
  - rewrite matches_star_front. split.
    + intros (front & back & -> & Hm). apply matches_literal in Hm; [|done].
      subst. by exists front.
    + intros [front ->]. exists front, word. split; [done|].
      by apply matches_literal.
  - rewrite matches_snoc_star. split.
    + intros (front & seg & -> & Hm). apply matches_literal in Hm; [|done].
      subst. by exists seg.
    + intros [seg ->]. exists word, seg. split; [done|].
      by apply matches_literal.
  - rewrite matches_star_front. split.
    + intros (front & back & -> & Hm).
      apply matches_snoc_star in Hm as (mid & seg & -> & Hm).
      apply matches_literal in Hm; [|done]. subst. eauto.
    + intros (before & after & ->). exists before, (word ++ after).
      split; [done|]. apply matches_snoc_star. exists word, after.
      split; [done|]. by apply matches_literal.
  - apply matches_star_front. exists text, []. rewrite app_nil_r.
    split; [done|]. by apply matches_nil_r.
Qed.

Lemma wildcardMatch_star_literal_witness :
  (wildcardMatch (lit "src/main.o") ("*" :: lit ".o") = true ↔
   lit ".o" `suffix_of` lit "src/main.o") ∧
  wildcardMatch (lit "src/main.o") ["*"] = true.
Proof.
  pose proof (wildcardMatch_star_literal (lit "src/main.o") (lit ".o") eq_refl)
    as (H1 & _ & _ & H4).
  split; [exact H1|exact H4].
Defined.

(** X7. A match bounds the length of the text: it has at least as many
    characters as the pattern has characters other than ['*'], and exactly
    as many as the pattern when the pattern has no ['*']. *)
Theorem wildcardMatch_length (text pattern : str) :
  wildcardMatch text pattern = true →
  fixed_chars pattern ≤ length text ∧
  ("*" ∉ pattern → length text = length pattern).
Proof.
  rewrite wildcardMatch_matches. intros Hm. split.
  - by apply matches_fixed_chars.
  - intros Hstar. by apply matches_no_star_length.
Qed.

Lemma wildcardMatch_length_witness :
  fixed_chars (lit "a?c*") ≤ length (lit "abcdef") ∧
  ("*" ∉ lit "a?c*" → length (lit "abcdef") = length (lit "a?c*")).
Proof.
  apply wildcardMatch_length. reflexivity.
Defined.

(** X8. Every character of a matching pattern other than ['*'] and ['?']
    occurs in the text.  So a pattern with a ['/'] in it matches no bare
    name (a name has no ['/']): it can exclude a file by its relative path
    only, and never prunes a directory. *)
Theorem wildcardMatch_literal_char (c : ascii) (text pattern : str) :
  c ≠ "*" → c ≠ "?" → c ∈ pattern →
  (wildcardMatch text pattern = true → c ∈ text) ∧
  (c ∉ text → wildcardMatch text pattern = false) ∧
  (∀ disable_recursion_pending patterns dir children,
     c ∉ text → Forall (λ pat, c ∈ pat) patterns →
     matchesAnyPattern text patterns = false ∧
     ∃ below, dumpEntry disable_recursion_pending patterns dir (Dir text children) =
              Descend (child_path dir text) :: below).
Proof.
  intros Hs Hq Hin.
  assert (H1 : ∀ pat, c ∈ pat → wildcardMatch text pat = true → c ∈ text).
  { intros pat Hpat Hm. apply wildcardMatch_matches in Hm.
    by eapply matches_literal_char. }
  split; [by apply H1|]. split.
  - intros Hc. apply not_true_is_false. intros Hm. by apply Hc, (H1 pattern).
  - intros drp patterns dir children Hc Hall.
    assert (Hnone : matchesAnyPattern text patterns = false).
    { apply not_true_is_false. intros Hm.
      apply matchesAnyPattern_exists in Hm as (pat & Hpat & Hm).
      rewrite Forall_forall in Hall. apply Hc, (H1 pat); auto. }
    split; [done|]. cbn [dumpEntry]. rewrite Hnone. eauto.
Qed.

Lemma wildcardMatch_literal_char_witness :
  wildcardMatch (lit "build") (lit "out/build") = false ∧
  wildcardMatch (lit "build") (lit "*/build") = false.
Proof.
  assert (Hc : "/" ∉ lit "build").
  { intros Hin. repeat (apply elem_of_cons in Hin as [Hin|Hin]; [discriminate|]).
    by apply elem_of_nil in Hin. }
  split.
  - refine (proj1 (proj2 (wildcardMatch_literal_char "/" (lit "build") (lit "out/build")
                            _ _ _)) Hc); try discriminate.
    apply list_elem_of_In. vm_compute. tauto.
  - refine (proj1 (proj2 (wildcardMatch_literal_char "/" (lit "build") (lit "*/build")
                            _ _ _)) Hc); try discriminate.
    apply list_elem_of_In. vm_compute. tauto.
Defined.

(** X9. Matching does not depend on the direction of reading: the reversed
    pattern matches the reversed text exactly when the pattern matches the
    text. *)
Theorem wildcardMatch_reverse (text pattern : str) :
  wildcardMatch (reverse text) (reverse pattern) = wildcardMatch text pattern.
Proof.
  apply eq_true_iff_eq. rewrite !wildcardMatch_matches. apply matches_reverse.
Qed.

(** X10. Stars in a row count as one: in any pattern, two adjacent ['*']
    can be replaced by a single one without changing what it matches. *)
Theorem wildcardMatch_double_star (text p1 p2 : str) :
  wildcardMatch text (p1 ++ "*" :: "*" :: p2) =
  wildcardMatch text (p1 ++ "*" :: p2).
Proof.
  apply eq_true_iff_eq. rewrite !wildcardMatch_matches, !matches_app.
  assert (H : ∀ t, matches t ("*" :: "*" :: p2) ↔ matches t ("*" :: p2)).
  { intros t. rewrite (matches_star_front t ("*" :: p2)). split.
    - intros (front & back & -> & Hm).
      apply matches_star_front in Hm as (mid & rest & -> & Hm).
      apply matches_star_front. exists (front ++ mid), rest.
      by rewrite app_assoc.
    - intros Hm. by exists [], t. }
  split; intros (t1 & t2 & Heq & H1 & H2); exists t1, t2;
    (split; [done|]); (split; [done|]); by apply H.
Qed.

(** ** More on the ignore file *)

Lemma spec_lines_nonempty s : spec_lines s ≠ [].
Proof.
  destruct s as [|c s]; cbn [spec_lines]; [done|].
  destruct (Ascii.eqb c newline); [done|]. by destruct (spec_lines s).
Qed.

Lemma spec_lines_app s1 s2 :
  spec_lines (s1 ++ newline :: s2) = spec_lines s1 ++ spec_lines s2.
Proof.
  induction s1 as [|c s1 IH]; cbn [app spec_lines].
  - by rewrite Ascii.eqb_refl.
  - rewrite IH. destruct (Ascii.eqb c newline); [done|].
    pose proof (spec_lines_nonempty s1). by destruct (spec_lines s1).
Qed.

Lemma kept_patterns_app l1 l2 :
  kept_patterns (l1 ++ l2) = kept_patterns l1 ++ kept_patterns l2.
Proof. unfold kept_patterns. by rewrite filter_app, map_app. Qed.

Lemma spec_lines_no_newline s : Forall (λ line, newline ∉ line) (spec_lines s).
Proof.
  induction s as [|c s IH]; cbn [spec_lines].
  - repeat constructor. apply not_elem_of_nil.
  - destruct (Ascii.eqb c newline) eqn:Hc.
    + constructor; [apply not_elem_of_nil|done].
    + apply ascii_eqb_false in Hc.
      destruct (spec_lines s) as [|l ls].
      * repeat constructor. rewrite list_elem_of_singleton. congruence.
      * apply Forall_cons in IH as [Hl Hls]. constructor; [|done].
        rewrite elem_of_cons. intros [?|?]; [congruence|done].
Qed.

Lemma spec_strip_no_newline line : newline ∉ line → newline ∉ spec_strip line.
Proof.
  destruct line as [|c tail]; [done|]. cbn [spec_strip].
  destruct (Ascii.eqb c "/"); [|done].
  rewrite not_elem_of_cons. tauto.
Qed.

Lemma kept_patterns_nil lines :
  kept_patterns lines = [] ↔ Forall (λ line, spec_kept line = false) lines.
Proof.
  unfold kept_patterns. induction lines as [|line lines IH].
  - split; [constructor|done].
  - rewrite filter_cons, Forall_cons.
    destruct (decide (spec_kept line = true)) as [Hk|Hk].
    + split; [done|]. intros [? _]. congruence.
    + rewrite IH. apply not_true_is_false in Hk. tauto.
Qed.

(** X11. Reading the ignore file composes over its lines: the patterns of
    [b1], a newline, [b2] are those of [b1] followed by those of [b2], so
    reading the whole file is reading [b1] and then [b2].  A newline at the
    end of the file changes nothing. *)
Theorem loadGitignorePatterns_app (b1 b2 : str) (patterns : list str) :
  (∃ first,
     loadGitignorePatterns (GiContent b1) patterns = Done first ∧
     loadGitignorePatterns (GiContent (b1 ++ newline :: b2)) patterns =
       loadGitignorePatterns (GiContent b2) first) ∧
  loadGitignorePatterns (GiContent (b1 ++ [newline])) patterns =
    loadGitignorePatterns (GiContent b1) patterns.
Proof.
  cbn [loadGitignorePatterns]. split.
  - eexists. split; [done|]. rewrite !read_lines_spec.
    unfold spec_file_patterns. rewrite !spec_lines_app, !kept_patterns_app.
    by rewrite app_assoc.
  - rewrite !read_lines_spec.
    unfold spec_file_patterns. rewrite !spec_lines_app, !kept_patterns_app.
    change (kept_patterns (spec_lines [])) with (@nil str).
    by rewrite app_nil_r.
Qed.

(** X12. What the ignore file adds: the patterns given stay in front,
    unchanged; no added pattern contains a newline; there are at most as
    many as the file has lines; and none is added exactly when every line
    is empty or starts with ['#']. *)
Theorem loadGitignorePatterns_added (bytes : str) (patterns : list str) :
  ∃ added,
    loadGitignorePatterns (GiContent bytes) patterns = Done (patterns ++ added) ∧
    Forall (λ pat, newline ∉ pat) added ∧
    length added ≤ length (spec_lines bytes) ∧
    (added = [] ↔
     Forall (λ line, line = [] ∨ ∃ tail, line = "#" :: tail) (spec_lines bytes)).
Proof.
  exists (spec_file_patterns bytes).
  split; [cbn [loadGitignorePatterns]; by rewrite read_lines_spec|].
  unfold spec_file_patterns. split; [|split].
  - unfold kept_patterns. apply Forall_forall. intros pat Hin.
    apply list_elem_of_fmap in Hin as (line & -> & Hin).
    apply list_elem_of_filter in Hin as [_ Hin].
    apply spec_strip_no_newline.
    by apply (proj1 (Forall_forall _ _) (spec_lines_no_newline bytes)).
  - unfold kept_patterns. rewrite length_map. apply length_filter.
  - rewrite kept_patterns_nil. apply Forall_iff. intros [|c tail]; cbn [spec_kept].
    + split; [by left|done].
    + rewrite negb_false_iff, ascii_eqb_true. split.
      * intros ->. right. eauto.
      * intros [?|(t & [= -> _])]; done.
Qed.

(** ** More on the text classifier *)

Lemma scan_bytes_app b1 b2 :
  scan_bytes (b1 ++ b2) = scan_bytes b1 && scan_bytes b2.
Proof.
  induction b1 as [|ch b1 IH]; [done|].
  cbn [app scan_bytes]. cbv zeta. rewrite IH.
  destruct (Nat.eqb _ 0); [done|]. by destruct (_ || _).
Qed.

(** X13. Only the first 1024 bytes of a file count: bytes after them never
    change the answer.  A file that is text stays text when cut short, and
    two contents that are text are text when put together. *)
Theorem isTextFile_chunk (bytes more : str) :
  (CHUNK_SIZE ≤ length bytes →
   isTextFile (Some (bytes ++ more)) = isTextFile (Some bytes)) ∧
  (isTextFile (Some (bytes ++ more)) = true → isTextFile (Some bytes) = true) ∧
  (isTextFile (Some bytes) = true → isTextFile (Some more) = true →
   isTextFile (Some (bytes ++ more)) = true).
Proof.
  cbn [isTextFile]. split; [|split].
  - intros Hlen. by rewrite take_app_le.
  - rewrite take_app, scan_bytes_app. by intros [? _]%andb_true_iff.
  - intros H1 H2. rewrite take_app, scan_bytes_app, H1. cbn [andb].
    rewrite scan_bytes_Forall in H2 |- *.
    rewrite Forall_forall in H2 |- *. intros c Hin. apply H2.
    apply list_elem_of_lookup in Hin as [i Hi].
    apply list_elem_of_lookup.
    destruct (decide (i < CHUNK_SIZE)) as [Hlt|Hge].
    + exists i. rewrite lookup_take_lt by done.
      apply lookup_take_Some in Hi as [Hi _]. done.
    + apply lookup_take_Some in Hi as [Hi Hlt].
      exists i. rewrite lookup_take_lt; [done|].
      apply lookup_lt_Some in Hi. lia.
Qed.

(** ** More on the walker *)

Lemma protocol_app tr1 tr2 :
  protocol tr1 → aborted tr1 = false → protocol tr2 → protocol (tr1 ++ tr2).
Proof.
  induction 1 as [| |rel tr _ IH|rel tr _ IH|rel tr _ IH|rel content tr _ IH];
    intros Ha H2; cbn [app]; [done|done|..].
  - by constructor; apply IH.
  - by apply protocol_probe, IH.
  - by apply protocol_body, IH.
  - rewrite <- app_assoc. apply protocol_emit, IH; [|done].
    revert Ha. unfold aborted. cbn [existsb is_terminate orb].
    by rewrite existsb_app.
Qed.

Lemma protocol_and_then tr1 tr2 :
  protocol tr1 → protocol tr2 → protocol (and_then tr1 tr2).
Proof.
  intros H1 H2. unfold and_then. destruct (aborted tr1) eqn:Ha; [done|].
  by apply protocol_app.
Qed.

Lemma protocol_for_each {A} (f : A → list action) l :
  Forall (λ x, protocol (f x)) l → protocol (for_each f l).
Proof.
  induction 1 as [|x l Hx _ IH]; [constructor|].
  cbn [for_each]. by apply protocol_and_then.
Qed.

Lemma protocol_dumpFile patterns relPath name probe body :
  protocol (dumpFile patterns relPath name probe body).
Proof.
  unfold dumpFile. destruct (_ || _); [constructor|].
  destruct (negb _); [by repeat constructor|].
  destruct body as [content|].
  - rewrite <- (app_nil_r (emit_file _ _)). apply protocol_emit. constructor.
  - apply protocol_body. constructor.
Qed.

Lemma protocol_dumpEntry drp patterns entry :
  ∀ dir, protocol (dumpEntry drp patterns dir entry).
Proof.
  induction entry as [name probe body|name children IH|name] using node_induction;
    intros dir; cbn [dumpEntry].
  - apply protocol_dumpFile.
  - destruct (matchesAnyPattern name patterns && drp); [constructor|].
    apply protocol_descend, protocol_for_each.
    eapply Forall_impl; [exact IH|]. intros e He. apply He.
  - destruct (matchesAnyPattern name patterns && drp); constructor.
Qed.

Lemma opened_paths_app tr1 tr2 :
  opened_paths (tr1 ++ tr2) = opened_paths tr1 ++ opened_paths tr2.
Proof.
  induction tr1 as [|a tr1 IH]; [done|].
  destruct a; cbn [app opened_paths]; by rewrite ?IH.
Qed.

Lemma opened_paths_for_each {A} (P : str → Prop) (f : A → list action) l :
  Forall (λ x, Forall P (opened_paths (f x))) l →
  Forall P (opened_paths (for_each f l)).
Proof.
  induction 1 as [|x l Hx _ IH]; [constructor|].
  cbn [for_each]. unfold and_then. destruct (aborted (f x)); [done|].
  rewrite opened_paths_app. apply Forall_app. by split.
Qed.

Lemma opened_paths_dumpEntry drp patterns entry :
  ∀ dir,
    Forall (λ rel, matchesAnyPattern rel patterns = false)
      (opened_paths (dumpEntry drp patterns dir entry)).
Proof.
  induction entry as [name probe body|name children IH|name] using node_induction;
    intros dir; cbn [dumpEntry].
  - unfold dumpFile.
    destruct (matchesAnyPattern (child_path dir name) patterns) eqn:Hrel;
      [constructor|].
    cbn [orb]. destruct (matchesAnyPattern name patterns); [constructor|].
    cbn [opened_paths]. constructor; [done|].
    destruct (negb _); [constructor|]. cbn [opened_paths].
    constructor; [done|]. by destruct body.
  - destruct (matchesAnyPattern name patterns && drp); [constructor|].
    cbn [opened_paths]. apply opened_paths_for_each.
    eapply Forall_impl; [exact IH|]. intros e He. apply He.
  - destruct (matchesAnyPattern name patterns && drp); constructor.
Qed.

(** X14. The walk keeps to a fixed order of actions and never opens what
    is excluded: a file's content is opened only right after the
    classifier's stream on the same path, a block is written only right
    after the content was opened, whole and for that path; the walk itself
    writes nothing to standard error; once the run is terminated nothing
    follows; and no stream is opened on a path that matches the pattern
    set.  This holds whatever the call of line 152 does. *)
Theorem dumpDirectory_protocol (disable_recursion_pending : bool)
    (entries : list node) (patterns : list str) :
  protocol (dumpDirectory disable_recursion_pending entries patterns) ∧
  Forall (λ rel, matchesAnyPattern rel patterns = false)
    (opened_paths (dumpDirectory disable_recursion_pending entries patterns)).
Proof.
  unfold dumpDirectory. split.
  - apply protocol_for_each, Forall_forall. intros e _. apply protocol_dumpEntry.
  - apply opened_paths_for_each, Forall_forall. intros e _.
    apply opened_paths_dumpEntry.
Qed.
















(** ** More on the argument loop and main *)

Lemma parse_args_options programName opts :
  Forall (λ o, value_flag o.1 = true) opts →
  ∀ targetDir ignorePatterns rest,
    parse_args programName (render opts ++ rest) targetDir ignorePatterns =
    parse_args programName rest (final_dir targetDir opts)
      (ignorePatterns ++ ignore_values opts).
Proof.
  induction 1 as [|[flag value] opts Hflag _ IH]; intros targetDir ignorePatterns rest.
  - cbn. by rewrite app_nil_r.
  - cbn [fst] in Hflag. unfold render in *. cbn [flat_map fst snd app].
    cbn [parse_args]. rewrite (value_flag_not_help _ Hflag).
    unfold final_dir, ignore_values. cbn [foldl flat_map fst snd].
    unfold value_flag in Hflag. destruct (is_dir flag); cbn [orb] in Hflag.
    + apply IH.
    + rewrite Hflag, IH. cbn [app]. by rewrite <- app_assoc.
Qed.

(** X17. On a command line made only of flag and value pairs, the scan
    root is the value of the last [-d]/[--dir] (the current directory when
    there is none) and the ignore list is the values of the
    [-i]/[--ignore] pairs in their order.  The run then checks that root:
    when the check throws the run is terminated; when the root is missing
    or not a directory the run reports it and returns 1; otherwise the
    ignore file is read (the run is terminated when its check throws) and
    the root is walked with these patterns and those of the file. *)
Theorem main_options (disable_recursion_pending : bool)
    (programName : str) (opts : list (str * str)) (w : world) :
  Forall (λ o, value_flag o.1 = true) opts →
  let targetDir := final_dir (current_path w) opts in
  parse_args programName (render opts) (current_path w) [] =
    Proceed targetDir (ignore_values opts) ∧
  main disable_recursion_pending (programName :: render opts) w =
    match status w targetDir with
    | Raises => (Aborts, [Terminate])
    | Absent | NotDirectory =>
        (Returns 1,
         [Cerr (lit "Directory " ++ quoted targetDir
                ++ lit " does not exist or is not a directory." ++ [newline])])
    | Directory gi entries =>
        match loadGitignorePatterns gi (ignore_values opts) with
        | Raised => (Aborts, [Terminate])
        | Done patterns =>
            let tr := match gi with GiMissing => [] | _ => [OpenIgnore] end
                      ++ dumpDirectory disable_recursion_pending entries patterns in
            (ending_of tr, tr)
        end
    | Unlistable gi =>
        match loadGitignorePatterns gi (ignore_values opts) with
        | Raised => (Aborts, [Terminate])
        | Done _ =>
            (Aborts,
             match gi with GiMissing => [] | _ => [OpenIgnore] end ++ [Terminate])
        end
    end ∧
  (∀ flag value before after,
     opts = before ++ (flag, value) :: after → is_dir flag = true →
     Forall (λ o, is_dir o.1 = false) after → targetDir = value) ∧
  (Forall (λ o, is_dir o.1 = false) opts →
   targetDir = current_path w ∧ ignore_values opts = opts.*2).
Proof.
  intros Hopts targetDir.
  assert (Hparse : parse_args programName (render opts) (current_path w) [] =
                   Proceed targetDir (ignore_values opts)).
  { pose proof (parse_args_options programName opts Hopts (current_path w) [] [])
      as H. by rewrite app_nil_r in H. }
  assert (Hnodir : ∀ d l, Forall (λ o : str * str, is_dir o.1 = false) l →
                          final_dir d l = d ∧ ignore_values l = l.*2).
  { intros d l Hl. unfold final_dir, ignore_values.
    induction Hl as [|o l Ho _ IH] in d |- *; [done|].
    cbn [foldl flat_map fmap list_fmap]. rewrite Ho.
    destruct (IH d) as [-> ->]. done. }
  split; [done|]. split; [|split].
  - unfold main. cbn [hd tl]. by rewrite Hparse.
  - intros flag value before after -> Hflag Hafter.
    unfold targetDir, final_dir. rewrite foldl_app. cbn [foldl fst snd].
    rewrite Hflag. by apply Hnodir.
  - intros Hall. by apply Hnodir.
Qed.

Lemma main_options_witness :
  let w := {| current_path := lit "/work"; status := λ _, Absent |} in
  parse_args (lit "dump")
    [lit "-d"; lit "a"; lit "-i"; lit "*.o"; lit "--dir"; lit "b"; lit "--ignore"; lit "-h"]
    (lit "/work") [] =
  Proceed (lit "b") [lit "*.o"; lit "-h"].
Proof.
  intros w.
  refine (proj1 (main_options true (lit "dump")
    [(lit "-d", lit "a"); (lit "-i", lit "*.o"); (lit "--dir", lit "b");
     (lit "--ignore", lit "-h")] w _)).
  repeat constructor.
Defined.

(** X18. The first argument in flag position that is not a flag with a
    value ends the run, whatever follows it and whatever the file system
    holds: [-h] or [--help] with the usage text and exit code 0, anything
    else with [Unrecognized option: ...] on standard error, the usage text
    and exit code 1. *)
Theorem main_stops_at (disable_recursion_pending : bool)
    (programName : str) (opts : list (str * str))
    (arg : str) (rest : list str) (w : world) :
  Forall (λ o, value_flag o.1 = true) opts →
  value_flag arg = false →
  main disable_recursion_pending (programName :: render opts ++ arg :: rest) w =
    if is_help arg then (Returns 0, printUsage programName)
    else (Returns 1,
          Cerr (lit "Unrecognized option: " ++ arg ++ [newline])
          :: printUsage programName).
Proof.
  intros Hopts Harg. unfold main. cbn [hd tl].
  rewrite parse_args_options by done. cbn [parse_args].
  destruct (is_help arg); [done|].
  unfold value_flag in Harg. apply orb_false_iff in Harg as [-> ->].
  by destruct rest.
Qed.

Lemma main_stops_at_witness :
  let w := {| current_path := lit "/work"; status := λ _, Directory GiMissing [] |} in
  main true [lit "dump"; lit "-i"; lit "*.o"; lit "--help"; lit "-d"] w =
    (Returns 0, printUsage (lit "dump")) ∧
  main true [lit "dump"; lit "-i"; lit "*.o"; lit "src"; lit "-h"] w =
    (Returns 1,
     Cerr (lit "Unrecognized option: src" ++ [newline]) :: printUsage (lit "dump")).
Proof.
  intros w. split.
  - exact (main_stops_at true (lit "dump") [(lit "-i", lit "*.o")] (lit "--help")
             [lit "-d"] w ltac:(repeat constructor) eq_refl).
  - exact (main_stops_at true (lit "dump") [(lit "-i", lit "*.o")] (lit "src")
             [lit "-h"] w ltac:(repeat constructor) eq_refl).
Defined.

Lemma parse_args_return programName args :
  ∀ targetDir ignorePatterns code tr,
    parse_args programName args targetDir ignorePatterns = Return code tr →
    (code = 0 ∧ tr = printUsage programName) ∨
    (code = 1 ∧ ∃ arg, arg ∈ args ∧
       tr = Cerr (lit "Unrecognized option: " ++ arg ++ [newline])
            :: printUsage programName).
Proof.
  assert (H : ∀ n args, length args ≤ n →
    ∀ targetDir ignorePatterns code tr,
      parse_args programName args targetDir ignorePatterns = Return code tr →
      (code = 0 ∧ tr = printUsage programName) ∨
      (code = 1 ∧ ∃ arg, arg ∈ args ∧
         tr = Cerr (lit "Unrecognized option: " ++ arg ++ [newline])
              :: printUsage programName)).
  { clear args. induction n as [|n IH]; intros args Hlen d i code tr.
    - destruct args; [done|simpl in Hlen; lia].
    - destruct args as [|arg [|value args]]; [done|..]; cbn [parse_args].
      + destruct (is_help arg); intros [= <- <-]; [by left|].
        right. split; [done|]. exists arg. split; [left|done].
      + destruct (is_help arg); [intros [= <- <-]; by left|].
        assert (Hrec : ∀ d' i',
          parse_args programName args d' i' = Return code tr →
          (code = 0 ∧ tr = printUsage programName) ∨
          (code = 1 ∧ ∃ a, a ∈ arg :: value :: args ∧
             tr = Cerr (lit "Unrecognized option: " ++ a ++ [newline])
                  :: printUsage programName)).
        { intros d' i' Hp. apply IH in Hp; [|simpl in Hlen; lia].
          destruct Hp as [?|(? & a & Ha & ?)]; [by left|].
          right. split; [done|]. exists a. split; [|done].
          by do 2 right. }
        destruct (is_dir arg); [apply Hrec|].
        destruct (is_ignore arg); [apply Hrec|].
        intros [= <- <-]. right. split; [done|]. exists arg. split; [left|done]. }
  by apply (H (length args)).
Qed.

(** X19. A run either is terminated by an uncaught exception or returns 0
    or 1.  It returns 0 only with nothing written to standard error, and
    1 only with something written there; a run that returns 1 has touched
    nothing of the tree (no stream opened, no directory entered) and has
    written to standard output nothing or the usage text.  A run is
    terminated exactly when its trace ends the walk or the checks with the
    exception, and then it has not written to standard error itself. *)
Theorem main_exit_code (disable_recursion_pending : bool)
    (argv : list str) (w : world) :
  let run := main disable_recursion_pending argv w in
  (run.1 = Returns 0 ∨ run.1 = Returns 1 ∨ run.1 = Aborts) ∧
  (run.1 = Returns 0 → stderr_of run.2 = [] ∧ aborted run.2 = false) ∧
  (run.1 = Returns 1 →
   stderr_of run.2 ≠ [] ∧ aborted run.2 = false ∧ scans run.2 = false ∧
   (stdout_of run.2 = [] ∨
    stdout_of run.2 = stdout_of (printUsage (hd [] argv)))) ∧
  (run.1 = Aborts ↔ aborted run.2 = true).
Proof.
  cbv zeta. unfold main.
  destruct (parse_args (hd [] argv) (tl argv) (current_path w) [])
    as [code tr|targetDir ignorePatterns] eqn:Hparse.
  - apply parse_args_return in Hparse as [[-> ->]|(-> & arg & _ & ->)];
      cbn [fst snd].
    + split; [by left|]. split; [done|]. split; [intros [=]|]. by split.
    + split; [by right; left|]. split; [intros [=]|]. split; [|by split].
      intros _. split; [done|]. split; [done|]. split; [done|]. by right.
  - assert (Hscan : ∀ tr,
      stderr_of tr = [] →
      ((ending_of tr, tr).1 = Returns 0 ∨ (ending_of tr, tr).1 = Returns 1
       ∨ (ending_of tr, tr).1 = Aborts) ∧
      ((ending_of tr, tr).1 = Returns 0 →
       stderr_of (ending_of tr, tr).2 = [] ∧ aborted (ending_of tr, tr).2 = false) ∧
      ((ending_of tr, tr).1 = Returns 1 →
       stderr_of (ending_of tr, tr).2 ≠ [] ∧ aborted (ending_of tr, tr).2 = false ∧
       scans (ending_of tr, tr).2 = false ∧
       (stdout_of (ending_of tr, tr).2 = [] ∨
        stdout_of (ending_of tr, tr).2 = stdout_of (printUsage (hd [] argv)))) ∧
      ((ending_of tr, tr).1 = Aborts ↔ aborted (ending_of tr, tr).2 = true)).
    { intros tr Herr. cbn [fst snd]. unfold ending_of.
      destruct (aborted tr).
      - split; [by right; right|]. split; [intros [=]|]. split; [intros [=]|]. done.
      - split; [by left|]. split; [done|]. split; [intros [=]|].
        split; intros [=]. }
    destruct (status w targetDir) as [| | |gi entries|gi].
    + cbn [fst snd]. split; [by right; right|]. split; [intros [=]|].
      split; [intros [=]|]. done.
    + cbn [fst snd]. split; [by right; left|]. split; [intros [=]|].
      split; [|by split]. intros _. split; [done|]. split; [done|].
      split; [done|]. by left.
    + cbn [fst snd]. split; [by right; left|]. split; [intros [=]|].
      split; [|by split]. intros _. split; [done|]. split; [done|].
      split; [done|]. by left.
    + destruct (loadGitignorePatterns gi ignorePatterns) as [patterns|].
      * apply Hscan. rewrite stderr_of_app, stderr_dumpDirectory. by destruct gi.
      * cbn [fst snd]. split; [by right; right|]. split; [intros [=]|].
        split; [intros [=]|]. done.
    + destruct (loadGitignorePatterns gi ignorePatterns) as [patterns|];
        cbn [fst snd].
      * split; [by right; right|]. split; [intros [=]|].
        split; [intros [=]|]. split; [|done]. intros _. by destruct gi.
      * split; [by right; right|]. split; [intros [=]|].
        split; [intros [=]|]. done.
Qed.

(** ** Edge cases of the matcher, and its table *)

Lemma matches_nil_l pattern :
  matches [] pattern ↔ Forall (λ c, c = "*") pattern.
Proof.
  split.
  - intros (segs & Hall & Hnil).
    induction Hall as [|c seg pattern segs Hseg _ IH]; [constructor|].
    cbn [concat] in Hnil. apply app_eq_nil in Hnil as [-> Hnil].
    constructor; [|by apply IH]. by inversion Hseg.
  - induction 1 as [|c pattern -> _ IH]; [by apply matches_nil_r|].
    apply matches_cons. exists [], []. split; [done|]. split; [constructor|done].
Qed.

Lemma matches_questions text n :
  matches text (replicate n "?") ↔ length text = n.
Proof.
  split.
  - intros Hm. apply matches_no_star_length in Hm.
    + by rewrite length_replicate in Hm.
    + intros [? _]%elem_of_replicate. done.
  - revert text. induction n as [|n IH]; intros text Hlen.
    + apply matches_nil_r. by destruct text.
    + destruct text as [|x text]; [done|]. cbn [replicate].
      apply matches_cons. exists [x], text. split; [done|].
      split; [constructor|]. apply IH. by injection Hlen.
Qed.

(** X20. The empty text is matched exactly by the patterns made of stars
    only (the empty pattern among them), and a pattern of [n] question
    marks matches exactly the texts of [n] characters. *)
Theorem wildcardMatch_edges (text pattern : str) (n : nat) :
  (wildcardMatch [] pattern = true ↔ Forall (λ c, c = "*") pattern) ∧
  (wildcardMatch text (replicate n "?") = true ↔ length text = n).
Proof.
  rewrite !wildcardMatch_matches. split.
  - apply matches_nil_l.
  - apply matches_questions.
Qed.

(** X21. The table does what the comment in the source says of it: when
    the loops are done it still has [str.size() + 1] rows of
    [pattern.size() + 1] cells, and [dp[i][j]] is true exactly when the
    first [i] characters of the text match the first [j] characters of the
    pattern. *)
Theorem fill_table_cells (s pattern : str) (i j : nat) :
  i ≤ length s → j ≤ length pattern →
  Table.shaped (length s + 1) (length pattern + 1) (fill_table s pattern) ∧
  (Table.get (fill_table s pattern) i j = true ↔
   matches (take i s) (take j pattern)).
Proof.
  intros Hi Hj. destruct (fill_table_inv s pattern) as [Hshape Hval].
  split; [done|]. rewrite Hval by done.
  rewrite decide_True by (unfold filled; lia). by apply cell_matches.
Qed.

Lemma fill_table_cells_witness :
  Table.get (fill_table (lit "abc") (lit "a*")) 2 2 = true ↔
  matches (take 2 (lit "abc")) (take 2 (lit "a*")).
Proof.
  refine (proj2 (fill_table_cells (lit "abc") (lit "a*") 2 2 _ _));
    cbn; lia.
Defined.

(** ** From the ignore file to the walk *)


